(** * s3explorer: listing, pagination and object access

    A shallow embedding of [src/features/explorer/s3.server.ts] (the three
    server functions and their helpers) and of
    [src/features/explorer/hooks.ts] (the [useObjectAccess] hook), followed
    by the properties of the listing-and-pagination engine and of the
    access broker.

    Conventions of the embedding:
    - a JavaScript number that the code uses as an integer is a [Z];
    - a JavaScript string is a [string]; only the order of the code units
      and their equality are ever observed;
    - an optional field ([x?: T], [T | undefined]) is an [option];
    - an [await]ed storage call either returns or throws: the handlers live
      in a small monad that threads the trace of the storage calls issued so
      far and stops at the first failure. *)

From Stdlib Require Import ZArith List String Ascii Bool Lia.
From Stdlib Require Import Sorting.Sorted Sorting.Permutation.
From Stdlib Require Import Structures.OrderedTypeEx.
From stdpp Require Import base strings gmap.

Import ListNotations.
Local Open Scope string_scope.
Local Open Scope list_scope.
Local Open Scope Z_scope.

#[local] Arguments String.append !_ _ : simpl nomatch.

(** ** JavaScript strings *)

Module Js.

(** [Boolean(s)] and [!s] on a string: only the empty string is falsy. *)
Definition truthy (s : string) : bool :=
match s with
| EmptyString => false
| String _ _ => true
end.

(** [Boolean(s)] on [string | undefined]. *)
Definition truthy_opt (s : option string) : bool :=
match s with
| None => false
| Some s => truthy s
end.

(** [s.replace(/^\/+/, '')]: the longest run of leading slashes is removed. *)
Fixpoint stripLeadingSlashes (s : string) : string :=
match s with
| String "/" s' => stripLeadingSlashes s'
| _ => s
end.

(** [s.endsWith('/')]. *)
Fixpoint endsWithSlash (s : string) : bool :=
match s with
| EmptyString => false
| String c EmptyString => Ascii.eqb c "/"
| String _ s' => endsWithSlash s'
end.

(** [s.replace(/\/$/, '')]: one trailing slash, if any, is removed. *)
Fixpoint stripTrailingSlash (s : string) : string :=
match s with
| EmptyString => EmptyString
| String c EmptyString => if Ascii.eqb c "/" then EmptyString else s
| String c s' => String c (stripTrailingSlash s')
end.

(** [s.slice(n)] for [0 <= n]. *)
Fixpoint dropChars (n : nat) (s : string) : string :=
match n, s with
| O, _ => s
| S _, EmptyString => EmptyString
| S n', String _ s' => dropChars n' s'
end.

(** [s.replace(search, replacement)] with a string pattern: only the first
    occurrence of [search] is replaced, wherever it starts; the empty pattern
    matches at index 0. The replacement strings of the program contain no
    [$], so no substitution pattern is expanded. *)
Fixpoint replace (s search replacement : string) : string :=
if String.prefix search s
then (replacement ++ dropChars (String.length search) s)%string
else match s with
     | EmptyString => EmptyString
     | String c s' => String c (replace s' search replacement)
     end.

(** [a > b] on strings: lexicographic order of the code units. *)
Definition gt (a b : string) : bool := String.ltb b a.

(** [Array.prototype.slice(start, end)] with its relative indices: a
    negative index counts from the end, and both are clamped to the array. *)
Definition relativeIndex (len i : Z) : Z :=
if i <? 0 then Z.max (len + i) 0 else Z.min i len.

Definition slice {A : Type} (l : list A) (start finish : Z) : list A :=
let len := Z.of_nat (List.length l) in
let k := relativeIndex len start in
let final := relativeIndex len finish in
firstn (Z.to_nat (final - k)) (skipn (Z.to_nat k) l).

(** [Array.prototype.sort(comparefn)]. The engine sorts stably and only
    looks at whether [comparefn x y] is negative: [y], met later in the
    array, moves in front of [x] exactly when [comparefn y x < 0]. The
    result is the stable sort for the order "[comparefn x y < 0]". *)
Fixpoint insert {A : Type} (comparefn : A -> A -> Z) (x : A) (l : list A) : list A :=
match l with
| [] => [x]
| y :: l' => if comparefn y x <? 0 then y :: insert comparefn x l' else x :: l
end.

Definition sort {A : Type} (comparefn : A -> A -> Z) (l : list A) : list A :=
fold_right (insert comparefn) [] l.

(** [Math.ceil(a / b)] for integers [a] and [b <> 0]: the quotient is
    rounded towards plus infinity. *)
Definition ceilDiv (a b : Z) : Z := - ((- a) / b).

(** [x ?? d]. *)
Definition nullish {A : Type} (x : option A) (d : A) : A :=
match x with
| Some v => v
| None => d
end.

End Js.

(** ** Values of the storage SDK and of the application *)

(** A [Date] is observed by the program through [toISOString] only. It is
    represented by that rendering, which is never the empty string (it has
    the form [YYYY-MM-DDTHH:mm:ss.sssZ]). *)
Record Date := mkDate {
  iso : string;
  iso_nonempty : Js.truthy iso = true
}.

Definition toISOString (d : Date) : string := iso d.

(** [_Object] of the SDK: every field is optional. *)
Module S3Object.
Record t := mk {
  Key : option string;
  Size : option Z;
  LastModified : option Date;
  ETag : option string
}.
End S3Object.

Module CommonPrefix.
Record t := mk { Prefix : option string }.
End CommonPrefix.

Module ListObjectsV2Input.
Record t := mk {
  Bucket : string;
  Prefix : option string;
  Delimiter : string;
  ContinuationToken : option string;
  MaxKeys : Z
}.
End ListObjectsV2Input.

Module ListObjectsV2Output.
Record t := mk {
  Contents : option (list S3Object.t);
  CommonPrefixes : option (list CommonPrefix.t);
  IsTruncated : option bool;
  NextContinuationToken : option string
}.
End ListObjectsV2Output.

Module HeadObjectInput.
Record t := mk { Bucket : string; Key : string }.
End HeadObjectInput.

Module HeadObjectOutput.
Record t := mk {
  ContentType : option string;
  ContentLength : option Z;
  LastModified : option Date
}.
End HeadObjectOutput.

Inductive Disposition := inline | attachment.

Module GetObjectInput.
Record t := mk {
  Bucket : string;
  Key : string;
  ResponseContentDisposition : Disposition;
  ResponseContentType : option string
}.
End GetObjectInput.

(** [ObjectSummary], [FolderSummary] and [ObjectAccess] of [types.ts]. *)
Module ObjectSummary.
Record t := mk {
  key : string;
  size : Z;
  lastModified : option string;
  etag : option string
}.
End ObjectSummary.

Module FolderSummary.
Record t := mk { name : string; prefix : string }.
End FolderSummary.

Module ObjectAccess.
Record t := mk {
  key : string;
  signedUrl : string;
  contentType : string;
  contentLength : Z;
  lastModified : option string
}.
End ObjectAccess.

Module PageInfo.
Record t := mk {
  currentPage : Z;
  totalPages : Z;
  totalItems : Z;
  itemsPerPage : Z;
  hasNextPage : bool;
  hasPrevPage : bool
}.
End PageInfo.

Module ExplorerResponse.
Record t := mk {
  prefix : string;
  objects : list ObjectSummary.t;
  folders : list FolderSummary.t;
  isTruncated : bool;
  nextCursor : option string
}.
End ExplorerResponse.

Module PaginatedExplorerResponse.
Record t := mk {
  prefix : string;
  objects : list ObjectSummary.t;
  folders : list FolderSummary.t;
  foldersPagination : PageInfo.t;
  filesPagination : PageInfo.t;
  isTruncated : bool;
  nextCursor : option string
}.
End PaginatedExplorerResponse.

(** An exception raised by the storage client. *)
Record JsError := mkError { errorName : string; errorMessage : string }.

(** ** Request validation (the zod schemas) *)

(** The [unknown] input of a server function. A number is an integer, a
    finite non-integer lying strictly between [below] and [below + 1], an
    infinity or NaN. *)
Inductive JsNumber :=
| JNaN
| JInfinity (negative : bool)
| JInt (z : Z)
| JFrac (below : Z).

#[local] Set Warnings "-register-all".
Inductive JsValue :=
| JUndefined
| JNull
| JBoolean (b : bool)
| JNumber (n : JsNumber)
| JString (s : string)
| JObject (fields : list (string * JsValue)).

(** [input[k]]: a property that is not there reads as [undefined]. *)
Fixpoint getField (fields : list (string * JsValue)) (k : string) : JsValue :=
match fields with
| [] => JUndefined
| (k', v) :: rest => if String.eqb k' k then v else getField rest k
end.

Inductive IssueCode := invalid_type | too_small | too_big | invalid_value.

Record Issue := mkIssue { code : IssueCode; path : string }.

Definition issuesOf {A : Type} (r : list Issue + A) : list Issue :=
match r with
| inl issues => issues
| inr _ => []
end.

(** [z.string().optional()] *)
Definition zStringOptional (p : string) (v : JsValue) : list Issue + option string :=
match v with
| JUndefined => inr None
| JString s => inr (Some s)
| _ => inl [mkIssue invalid_type p]
end.

(** [z.string().min(1)] *)
Definition zStringMin1 (p : string) (v : JsValue) : list Issue + string :=
match v with
| JString s => if Js.truthy s then inr s else inl [mkIssue too_small p]
| _ => inl [mkIssue invalid_type p]
end.

(** [Number.MAX_SAFE_INTEGER], [2^53 - 1]: the integers up to it, and down
    to its opposite, are the safe integers. A validated page number is one
    of them. The handlers below take the product of a page number by a page
    size exactly; the code rounds it once it passes this bound, which leaves
    it beyond the length of any array, and so leaves every slice as it is. *)
Definition MAX_SAFE_INTEGER : Z := 9007199254740991.

(** The checks of [z.number().int().positive().max(m)], as zod runs them.
    The type check of [z.number()] refuses NaN and the infinities, and no
    check is run on them. [.int()] refuses a number that is not an integer
    and stops the checks there; of an integer outside the safe integers it
    reports [too_big] or [too_small] and lets the checks go on.
    [.positive()] and [.max(m)] each report their issue. *)
Definition numberIssues (p : string) (max : option Z) (n : JsNumber) : list Issue :=
let safe (z : Z) :=
  if MAX_SAFE_INTEGER <? z then [mkIssue too_big p]
  else if z <? - MAX_SAFE_INTEGER then [mkIssue too_small p]
  else [] in
let small (b : bool) := if b then [mkIssue too_small p] else [] in
let big (f : Z -> bool) :=
  match max with
  | Some m => if f m then [mkIssue too_big p] else []
  | None => []
  end in
match n with
| JNaN => [mkIssue invalid_type p]
| JInfinity _ => [mkIssue invalid_type p]
| JFrac _ => [mkIssue invalid_type p]
| JInt z => safe z ++ small (z <=? 0) ++ big (fun m => m <? z)
end.

(** [z.number().int().positive().max(m).default(d)]; without [max] when
    [max = None]. *)
Definition zIntPositive (p : string) (max : option Z) (d : Z) (v : JsValue)
  : list Issue + Z :=
match v with
| JUndefined => inr d
| JNumber n =>
    match numberIssues p max n, n with
    | [], JInt z => inr z
    | issues, _ => inl issues
    end
| _ => inl [mkIssue invalid_type p]
end.

(** [z.enum(['inline', 'attachment']).default('inline')] *)
Definition zDisposition (p : string) (v : JsValue) : list Issue + Disposition :=
match v with
| JUndefined => inr inline
| JString s =>
    if String.eqb s "inline" then inr inline
    else if String.eqb s "attachment" then inr attachment
    else inl [mkIssue invalid_value p]
| _ => inl [mkIssue invalid_value p]
end.

Module ListRequest.
Record t := mk { prefix : option string; limit : Z; cursor : option string }.
End ListRequest.

Module PaginatedListRequest.
Record t := mk {
  prefix : option string;
  foldersPage : Z;
  filesPage : Z;
  itemsPerPage : Z
}.
End PaginatedListRequest.

Module ObjectAccessRequest.
Record t := mk { key : string; disposition : Disposition }.
End ObjectAccessRequest.

Definition listRequestSchema (input : JsValue) : list Issue + ListRequest.t :=
match input with
| JObject o =>
    match zStringOptional "prefix" (getField o "prefix"),
          zIntPositive "limit" (Some 200) 50 (getField o "limit"),
          zStringOptional "cursor" (getField o "cursor") with
    | inr p, inr l, inr c => inr (ListRequest.mk p l c)
    | r1, r2, r3 => inl (issuesOf r1 ++ issuesOf r2 ++ issuesOf r3)
    end
| _ => inl [mkIssue invalid_type ""]
end.

Definition paginatedListSchema (input : JsValue)
  : list Issue + PaginatedListRequest.t :=
match input with
| JObject o =>
    match zStringOptional "prefix" (getField o "prefix"),
          zIntPositive "foldersPage" None 1 (getField o "foldersPage"),
          zIntPositive "filesPage" None 1 (getField o "filesPage"),
          zIntPositive "itemsPerPage" (Some 50) 10 (getField o "itemsPerPage") with
    | inr p, inr fo, inr fi, inr n => inr (PaginatedListRequest.mk p fo fi n)
    | r1, r2, r3, r4 =>
        inl (issuesOf r1 ++ issuesOf r2 ++ issuesOf r3 ++ issuesOf r4)
    end
| _ => inl [mkIssue invalid_type ""]
end.

Definition objectAccessSchema (input : JsValue)
  : list Issue + ObjectAccessRequest.t :=
match input with
| JObject o =>
    match zStringMin1 "key" (getField o "key"),
          zDisposition "disposition" (getField o "disposition") with
    | inr k, inr d => inr (ObjectAccessRequest.mk k d)
    | r1, r2 => inl (issuesOf r1 ++ issuesOf r2)
    end
| _ => inl [mkIssue invalid_type ""]
end.

(** ** The storage capability and the monad of the server functions *)

Record Env := mkEnv { S3_BUCKET : string }.

(** What the storage service answers to each command: a response, or an
    exception. [presign] is [getSignedUrl] applied to a [GetObjectCommand]. *)
Record S3Client := mkS3Client {
  listObjectsV2 : ListObjectsV2Input.t -> JsError + ListObjectsV2Output.t;
  headObject : HeadObjectInput.t -> JsError + HeadObjectOutput.t;
  presign : GetObjectInput.t -> Z -> JsError + string
}.

(** A storage call, as it appears in the trace. *)
Inductive Call :=
| ListObjectsV2Command (input : ListObjectsV2Input.t)
| HeadObjectCommand (input : HeadObjectInput.t)
| GetSignedUrl (input : GetObjectInput.t) (expiresIn : Z).

Inductive Failure :=
| ZodError (issues : list Issue)
| StorageError (e : JsError).

(** A computation of a server function: from the trace of the calls issued
    so far to a result or a failure, and the extended trace. *)
Definition Srv (A : Type) : Type := list Call -> (Failure + A) * list Call.

Definition ret {A : Type} (a : A) : Srv A := fun tr => (inr a, tr).

Definition throw {A : Type} (f : Failure) : Srv A := fun tr => (inl f, tr).

Definition bind {A B : Type} (m : Srv A) (k : A -> Srv B) : Srv B :=
fun tr =>
  match m tr with
  | (inr a, tr') => k a tr'
  | (inl f, tr') => (inl f, tr')
  end.

Notation "'let*' x ':=' m 'in' k" := (bind m (fun x => k))
  (at level 10, x name, m at level 100, k at level 200).

(** [await s3.send(command)] and [await getSignedUrl(s3, command, opts)]:
    the call is recorded, then its answer is returned or thrown. *)
Definition await {A : Type} (c : Call) (answer : JsError + A) : Srv A :=
fun tr =>
  (match answer with
   | inl e => inl (StorageError e)
   | inr a => inr a
   end, tr ++ [c]).

(** [createServerFn().inputValidator(v).handler(h)]: the handler runs on
    the validated data, and only when the validator has not thrown. *)
Definition createServerFn {D A : Type}
  (inputValidator : JsValue -> list Issue + D) (handler : D -> Srv A)
  (input : JsValue) : Srv A :=
match inputValidator input with
| inl issues => throw (ZodError issues)
| inr data => handler data
end.

(** [s || undefined] on a string. *)
Definition orUndefined (s : string) : option string :=
if Js.truthy s then Some s else None.

(** [Boolean(b)] on [boolean | undefined]. *)
Definition booleanOf (b : option bool) : bool := Js.nullish b false.

(** ** Prefix normalisation *)

Definition normalizePrefix (prefix : option string) : string :=
match prefix with
| None => ""
| Some p =>
    if negb (Js.truthy p) then ""
    else
      let trimmed := Js.stripLeadingSlashes p in
      if Js.endsWithSlash trimmed then trimmed else (trimmed ++ "/")%string
end.

(** ** Mapping and ordering the entries *)

(** The filter keeps the objects whose [Key] is a non-empty string; the
    type guard of the source makes [object.Key] a string in the mapping. *)
Definition safeMapObjects (objects : option (list S3Object.t))
  : list ObjectSummary.t :=
map (fun object =>
       ObjectSummary.mk
         (Js.nullish (S3Object.Key object) "")
         (Js.nullish (S3Object.Size object) 0)
         (option_map toISOString (S3Object.LastModified object))
         (S3Object.ETag object))
    (List.filter (fun object => Js.truthy_opt (S3Object.Key object))
                 (Js.nullish objects [])).

(** The comparator given to [sort] for the objects. In its last line both
    operands are strings; [>] with an [undefined] operand would be false. *)
Definition compareObjects (a b : ObjectSummary.t) : Z :=
let la := ObjectSummary.lastModified a in
let lb := ObjectSummary.lastModified b in
if negb (Js.truthy_opt la) && negb (Js.truthy_opt lb) then 0
else if negb (Js.truthy_opt la) then 1
else if negb (Js.truthy_opt lb) then -1
else match la, lb with
     | Some x, Some y => if Js.gt x y then -1 else 1
     | _, _ => 1
     end.

(** The common prefixes turned into folders, before any sorting. *)
Definition mapFolders (prefix : string) (commonPrefixes : option (list CommonPrefix.t))
  : list FolderSummary.t :=
map (fun name =>
       FolderSummary.mk (Js.stripTrailingSlash name) (prefix ++ name)%string)
    (List.filter (fun name => Js.truthy name && negb (String.eqb name prefix))
       (map (fun entry =>
               match CommonPrefix.Prefix entry with
               | Some p => Js.replace p prefix ""
               | None => ""
               end)
            (Js.nullish commonPrefixes []))).

(** ** The server functions *)

Section ServerFunctions.

Variable env : Env.
Variable s3 : S3Client.

(** [String.prototype.localeCompare] of the runtime, used to order the
    folders; its collation belongs to the host, not to the program. *)
Variable localeCompare : string -> string -> Z.

Definition sendListObjectsV2 (input : ListObjectsV2Input.t)
  : Srv ListObjectsV2Output.t :=
await (ListObjectsV2Command input) (listObjectsV2 s3 input).

Definition sendHeadObject (input : HeadObjectInput.t) : Srv HeadObjectOutput.t :=
await (HeadObjectCommand input) (headObject s3 input).

Definition getSignedUrl (input : GetObjectInput.t) (expiresIn : Z) : Srv string :=
await (GetSignedUrl input expiresIn) (presign s3 input expiresIn).

Definition listObjectsHandler (data : ListRequest.t) : Srv ExplorerResponse.t :=
let prefix := normalizePrefix (ListRequest.prefix data) in
let* response :=
  sendListObjectsV2
    (ListObjectsV2Input.mk (S3_BUCKET env) (orUndefined prefix) "/"
       (ListRequest.cursor data) (ListRequest.limit data)) in
let objects :=
  Js.slice
    (Js.sort compareObjects (safeMapObjects (ListObjectsV2Output.Contents response)))
    0 (ListRequest.limit data) in
let folders := mapFolders prefix (ListObjectsV2Output.CommonPrefixes response) in
ret (ExplorerResponse.mk prefix objects folders
       (booleanOf (ListObjectsV2Output.IsTruncated response))
       (ListObjectsV2Output.NextContinuationToken response)).

Definition listObjects : JsValue -> Srv ExplorerResponse.t :=
createServerFn listRequestSchema listObjectsHandler.

(** The full sorted lists that [listObjectsPaginated] cuts into pages. *)
Definition allObjects (response : ListObjectsV2Output.t) : list ObjectSummary.t :=
Js.sort compareObjects (safeMapObjects (ListObjectsV2Output.Contents response)).

Definition allFolders (prefix : string) (response : ListObjectsV2Output.t)
  : list FolderSummary.t :=
Js.sort (fun a b => localeCompare (FolderSummary.name a) (FolderSummary.name b))
  (mapFolders prefix (ListObjectsV2Output.CommonPrefixes response)).

Definition listObjectsPaginatedHandler (data : PaginatedListRequest.t)
  : Srv PaginatedExplorerResponse.t :=
let prefix := normalizePrefix (PaginatedListRequest.prefix data) in
let* response :=
  sendListObjectsV2
    (ListObjectsV2Input.mk (S3_BUCKET env) (orUndefined prefix) "/" None 1000) in
let allObjects := allObjects response in
let allFolders := allFolders prefix response in
let foldersPage := PaginatedListRequest.foldersPage data in
let filesPage := PaginatedListRequest.filesPage data in
let itemsPerPage := PaginatedListRequest.itemsPerPage data in
let foldersStartIndex := (foldersPage - 1) * itemsPerPage in
let foldersEndIndex := foldersStartIndex + itemsPerPage in
let paginatedFolders := Js.slice allFolders foldersStartIndex foldersEndIndex in
let totalFoldersPages :=
  Js.ceilDiv (Z.of_nat (List.length allFolders)) itemsPerPage in
let filesStartIndex := (filesPage - 1) * itemsPerPage in
let filesEndIndex := filesStartIndex + itemsPerPage in
let paginatedObjects := Js.slice allObjects filesStartIndex filesEndIndex in
let totalFilesPages :=
  Js.ceilDiv (Z.of_nat (List.length allObjects)) itemsPerPage in
ret (PaginatedExplorerResponse.mk prefix paginatedObjects paginatedFolders
       (PageInfo.mk foldersPage totalFoldersPages
          (Z.of_nat (List.length allFolders)) itemsPerPage
          (foldersPage <? totalFoldersPages) (1 <? foldersPage))
       (PageInfo.mk filesPage totalFilesPages
          (Z.of_nat (List.length allObjects)) itemsPerPage
          (filesPage <? totalFilesPages) (1 <? filesPage))
       (booleanOf (ListObjectsV2Output.IsTruncated response))
       (ListObjectsV2Output.NextContinuationToken response)).

Definition listObjectsPaginated : JsValue -> Srv PaginatedExplorerResponse.t :=
createServerFn paginatedListSchema listObjectsPaginatedHandler.

Definition getObjectAccessHandler (data : ObjectAccessRequest.t)
  : Srv ObjectAccess.t :=
let key := ObjectAccessRequest.key data in
let* head := sendHeadObject (HeadObjectInput.mk (S3_BUCKET env) key) in
let* signedUrl :=
  getSignedUrl
    (GetObjectInput.mk (S3_BUCKET env) key
       (match ObjectAccessRequest.disposition data with
        | attachment => attachment
        | _ => inline
        end)
       (HeadObjectOutput.ContentType head))
    300 in
ret (ObjectAccess.mk key signedUrl
       (Js.nullish (HeadObjectOutput.ContentType head) "application/octet-stream")
       (Js.nullish (HeadObjectOutput.ContentLength head) 0)
       (option_map toISOString (HeadObjectOutput.LastModified head))).

Definition getObjectAccess : JsValue -> Srv ObjectAccess.t :=
createServerFn objectAccessSchema getObjectAccessHandler.

End ServerFunctions.

(** ** The hook [useObjectAccess] *)

Module Hook.

Inductive AccessState :=
| idle
| loading (key : string)
| error (key : string) (message : string)
| success (key : string) (data : ObjectAccess.t).

#[export] Instance Disposition_eq_dec : EqDecision Disposition.
Proof. solve_decision. Defined.

(** One mounted instance of the hook. Every run of the effect body that
    reaches [let aborted = false] allocates its own variable [aborted],
    shared by the two promise callbacks and by the cleanup function that
    the run returns; the runs are numbered in order. *)
Record t := mk {
  state : AccessState;
  deps : option (option string * Disposition);
  cleanup : option nat;
  aborted : gmap nat bool;
  fetches : gmap nat string;
  runs : nat
}.

(** The first render has not happened yet: [useState({ status: 'idle' })]. *)
Definition init : t := mk idle None None ∅ ∅ 0.

(** What a call of [getObjectAccess] settles with: the grant, a rejection
    with an [Error], or a rejection with some other value. *)
Inductive Outcome :=
| Fulfilled (data : ObjectAccess.t)
| RejectedError (e : JsError)
| RejectedOther.

Inductive Event :=
| Render (key : option string) (disposition : Disposition)
| Settle (run : nat) (outcome : Outcome).

Definition defaultMessage : string :=
"Une erreur est survenue lors de la récupération du document.".

(** The cleanup function of the previous run, called by React before the
    effect runs again: [aborted = true] in the closure of that run. *)
Definition runCleanup (h : t) : t :=
match cleanup h with
| Some r => mk (state h) (deps h) None (<[r := true]> (aborted h)) (fetches h) (runs h)
| None => h
end.

(** The body of the effect for the arguments [key] and [disposition]. *)
Definition runEffect (key : option string) (disposition : Disposition) (h : t) : t :=
if negb (Js.truthy_opt key)
then mk idle (Some (key, disposition)) None (aborted h) (fetches h) (runs h)
else
  let k := Js.nullish key "" in
  let r := runs h in
  mk (loading k) (Some (key, disposition)) (Some r)
     (<[r := false]> (aborted h)) (<[r := k]> (fetches h)) (S r).

(** The callbacks given to [then] and [catch] by run [r], whose closure
    holds [key = k]. *)
Definition settle (r : nat) (k : string) (outcome : Outcome) (h : t) : t :=
let h' := mk (state h) (deps h) (cleanup h) (aborted h) (delete r (fetches h)) (runs h) in
if Js.nullish (aborted h !! r) false then h'
else
  let st :=
    match outcome with
    | Fulfilled data => success k data
    | RejectedError e => error k (errorMessage e)
    | RejectedOther => error k defaultMessage
    end in
  mk st (deps h') (cleanup h') (aborted h') (fetches h') (runs h').

(** One step of the instance. A render and the effect that React flushes
    for it are one step: the cleanup of the previous run, then the body. A
    render whose dependencies [key] and [disposition] are unchanged runs no
    effect; a promise settles once. *)
Definition step (h : t) (e : Event) : t :=
match e with
| Render key disposition =>
    if decide (deps h = Some (key, disposition)) then h
    else runEffect key disposition (runCleanup h)
| Settle r outcome =>
    match fetches h !! r with
    | Some k => settle r k outcome h
    | None => h
    end
end.

Definition run (events : list Event) : t := fold_left step events init.

(** The key argument of the most recent render. *)
Fixpoint selected (events : list Event) (acc : option string) : option string :=
match events with
| [] => acc
| Render key _ :: rest => selected rest key
| Settle _ _ :: rest => selected rest acc
end.

(** The state shown for a selection: [idle] without a key, and a state
    carrying exactly that key otherwise. *)
Definition showsKey (st : AccessState) (key : option string) : Prop :=
if Js.truthy_opt key
then match st with
     | idle => False
     | loading k | error k _ | success k _ => Some k = key
     end
else st = idle.

(** The key of the dependencies of the last effect run. *)
Definition currentKey (h : t) : option string :=
match deps h with
| Some (key, _) => key
| None => None
end.

(** What every reachable instance satisfies: the runs that started a fetch
    are numbered below [runs]; every outstanding fetch but the one of the
    last effect run has [aborted = true]; the last effect run, when it
    started a fetch, did so for the current key and has [aborted = false];
    and the state shows the current key. *)
Record Invariant (h : t) : Prop := {
  inv_fresh : forall r k, fetches h !! r = Some k -> (r < runs h)%nat;
  inv_stale : forall r k,
    fetches h !! r = Some k -> cleanup h <> Some r -> aborted h !! r = Some true;
  inv_live : forall r,
    cleanup h = Some r ->
    (r < runs h)%nat /\ aborted h !! r = Some false /\
    exists k, currentKey h = Some k /\ Js.truthy k = true /\
              forall k', fetches h !! r = Some k' -> k' = k;
  inv_shows : showsKey (state h) (currentKey h)
}.

End Hook.

(** ** Comparators

    What [sort] needs of a comparator to order a list: the relation
    "[comparefn x y < 0]" is asymmetric and its complement is transitive. *)
Record StrictWeakOrder {A : Type} (comparefn : A -> A -> Z) : Prop := {
  swo_asym : forall x y, comparefn x y < 0 -> ~ comparefn y x < 0;
  swo_negtrans : forall x y z,
    ~ comparefn y x < 0 -> ~ comparefn z y < 0 -> ~ comparefn z x < 0
}.

(** A consistent comparator, as the language asks of the argument of
    [sort]: exchanging the operands exchanges the sign, and "not after" is
    transitive. *)
Record ConsistentComparator {A : Type} (comparefn : A -> A -> Z) : Prop := {
  cc_antisym : forall x y, 0 < comparefn x y <-> comparefn y x < 0;
  cc_trans : forall x y z,
    comparefn x y <= 0 -> comparefn y z <= 0 -> comparefn x z <= 0
}.

(** ** Requests and results, as the properties name them *)

Definition optionalString (s : option string) : JsValue :=
match s with
| Some x => JString x
| None => JUndefined
end.

(** The request [{ prefix, foldersPage, filesPage, itemsPerPage }]. *)
Definition listingRequest (prefix : option string)
  (foldersPage filesPage itemsPerPage : Z) : JsValue :=
JObject [ ("prefix", optionalString prefix);
          ("foldersPage", JNumber (JInt foldersPage));
          ("filesPage", JNumber (JInt filesPage));
          ("itemsPerPage", JNumber (JInt itemsPerPage)) ].

(** The command that [listObjectsPaginated] sends for a prefix. *)
Definition listingCommand (env : Env) (prefix : option string)
  : ListObjectsV2Input.t :=
ListObjectsV2Input.mk (S3_BUCKET env) (orUndefined (normalizePrefix prefix))
  "/" None 1000.

(** The two pages of a listing; no page when the call failed. *)
Definition objectsOf (r : (Failure + PaginatedExplorerResponse.t) * list Call)
  : list ObjectSummary.t :=
match fst r with
| inr x => PaginatedExplorerResponse.objects x
| inl _ => []
end.

Definition foldersOf (r : (Failure + PaginatedExplorerResponse.t) * list Call)
  : list FolderSummary.t :=
match fst r with
| inr x => PaginatedExplorerResponse.folders x
| inl _ => []
end.

(** [q] is [a / b] rounded up: the least [q] with [a <= q * b]. *)
Definition isCeiling (q a b : Z) : Prop := (q - 1) * b < a <= q * b.

(** An array holds fewer than [2^32] elements. *)
Definition MAX_ARRAY_LENGTH : Z := 4294967295.

Definition isArray {A : Type} (l : list A) : bool :=
Z.of_nat (List.length l) <=? MAX_ARRAY_LENGTH.

(** The normalisation as the specification words it: the leading slashes
    are stripped; a slash is appended when the result is not empty and does
    not end with one; an absent or empty prefix is the bucket root. *)
Definition normalizePrefixAsSpecified (prefix : option string) : string :=
match prefix with
| None => ""
| Some p =>
    let trimmed := Js.stripLeadingSlashes p in
    if Js.truthy trimmed && negb (Js.endsWithSlash trimmed)
    then (trimmed ++ "/")%string
    else trimmed
end.

(** A prefix made of slashes only, and of one at least. *)
Definition slashesOnly (prefix : option string) : bool :=
match prefix with
| None => false
| Some p => Js.truthy p && negb (Js.truthy (Js.stripLeadingSlashes p))
end.

(** The request [{ key, disposition }]. *)
Definition dispositionName (d : Disposition) : string :=
match d with
| inline => "inline"
| attachment => "attachment"
end.

Definition accessRequest (key : string) (disposition : option Disposition)
  : JsValue :=
JObject [ ("key", JString key);
          ("disposition",
           match disposition with
           | Some d => JString (dispositionName d)
           | None => JUndefined
           end) ].

(** A positive integer, at most [max] when there is one. *)
Definition positiveInteger (max : option Z) (v : JsValue) : bool :=
match v with
| JNumber (JInt z) =>
    (0 <? z) && match max with
                | Some m => z <=? m
                | None => true
                end
| _ => false
end.

(** A number field that is given and is not such an integer. *)
Definition malformedNumber (max : option Z) (v : JsValue) : bool :=
match v with
| JUndefined => false
| _ => negb (positiveInteger max v)
end.

(** A malformed listing request: one of its page numbers is not a positive
    integer, or its page size is not a positive integer at most 50; or it
    is not an object at all. *)
Definition malformedListing (input : JsValue) : bool :=
match input with
| JObject o =>
    malformedNumber None (getField o "foldersPage")
    || malformedNumber None (getField o "filesPage")
    || malformedNumber (Some 50) (getField o "itemsPerPage")
| _ => true
end.

(** The sizes that the store reports are byte counts. *)
Definition sizesReported (objects : option (list S3Object.t)) : Prop :=
Forall (fun o => forall n, S3Object.Size o = Some n -> 0 <= n)
       (Js.nullish objects []).

(** An entry with a key and a size. *)
Definition keyedAndSized (e : ObjectSummary.t) : Prop :=
ObjectSummary.key e <> "" /\ 0 <= ObjectSummary.size e.

(** An entry without a date. *)
Definition undated (e : ObjectSummary.t) : bool :=
match ObjectSummary.lastModified e with
| None => true
| Some _ => false
end.

(** Latest first, undated last: of two entries of [l], the one that comes
    first is not the earlier of two dated entries, and is dated when the
    other one is. *)
Definition latestFirst (l : list ObjectSummary.t) : Prop :=
forall l1 a l2 b l3, l = l1 ++ a :: l2 ++ b :: l3 ->
  (forall ta tb,
     ObjectSummary.lastModified a = Some ta ->
     ObjectSummary.lastModified b = Some tb -> Js.gt tb ta = false) /\
  (ObjectSummary.lastModified a = None -> ObjectSummary.lastModified b = None).

(** A path segment: no slash in it. *)
Fixpoint noSlash (s : string) : bool :=
match s with
| EmptyString => true
| String c s' => negb (Ascii.eqb c "/") && noSlash s'
end.

(** [s] ends with a slash, and with one only. *)
Definition oneTrailingSlash (s : string) : bool :=
Js.endsWithSlash s && negb (Js.endsWithSlash (Js.stripTrailingSlash s)).

(** ** A sample bucket

    The listing of the prefix [docs/] used in the examples: three files,
    [a] modified on 2024-01-01, [b] on 2024-03-01 and [c] without a date,
    and two sub-folders. *)

Module Sample.

Definition env : Env := mkEnv "bucket".

Definition january : Date := mkDate "2024-01-01T00:00:00.000Z" eq_refl.
Definition march : Date := mkDate "2024-03-01T00:00:00.000Z" eq_refl.

Definition contents : list S3Object.t :=
[ S3Object.mk (Some "docs/a") (Some 10) (Some january) None;
  S3Object.mk None (Some 7) (Some march) None;
  S3Object.mk (Some "docs/b") None (Some march) (Some "etag-b");
  S3Object.mk (Some "docs/c") (Some 30) None None ].

Definition commonPrefixes : list CommonPrefix.t :=
[ CommonPrefix.mk (Some "docs/img/"); CommonPrefix.mk (Some "docs/css/") ].

Definition response : ListObjectsV2Output.t :=
ListObjectsV2Output.mk (Some contents) (Some commonPrefixes) (Some false) None.

Definition head : HeadObjectOutput.t :=
HeadObjectOutput.mk None None None.

Definition s3 : S3Client :=
mkS3Client (fun _ => inr response) (fun _ => inr head)
  (fun input _ => inr ("https://s3.example/" ++ GetObjectInput.Key input)%string).

(** A collation by code units, standing for the host's [localeCompare]. *)
Definition localeCompare (a b : string) : Z :=
match String.compare a b with
| Lt => -1
| Eq => 0
| Gt => 1
end.

(** The listing of [docs/] when the bucket holds the key [docs//x]: the
    store groups it under the common prefix [docs//]. *)
Definition emptySegment : ListObjectsV2Output.t :=
ListObjectsV2Output.mk None (Some [CommonPrefix.mk (Some "docs//")]) None None.

Definition s3EmptySegment : S3Client :=
mkS3Client (fun _ => inr emptySegment) (fun _ => inr head)
  (fun input _ => inr ("https://s3.example/" ++ GetObjectInput.Key input)%string).

(** A store that reports a negative size for the key [docs/a]. *)
Definition negativeSize : ListObjectsV2Output.t :=
ListObjectsV2Output.mk (Some [S3Object.mk (Some "docs/a") (Some (-5)) None None])
  None None None.

Definition s3NegativeSize : S3Client :=
mkS3Client (fun _ => inr negativeSize) (fun _ => inr head)
  (fun input _ => inr ("https://s3.example/" ++ GetObjectInput.Key input)%string).

Definition grantA : ObjectAccess.t :=
ObjectAccess.mk "A" "https://s3.example/A" "text/plain" 1 None.

Definition grantB : ObjectAccess.t :=
ObjectAccess.mk "B" "https://s3.example/B" "text/plain" 2 None.

End Sample.

(** ** The helpers of the page: [utils.ts] and [routes/index.tsx] *)

Module Ui.

(** [s.split('/')]: the pieces between the slashes; a string without a
    slash, the empty one too, is its own single piece. *)
Fixpoint split (s : string) : list string :=
match s with
| EmptyString => [EmptyString]
| String c s' =>
    if Ascii.eqb c "/" then EmptyString :: split s'
    else match split s' with
         | piece :: pieces => String c piece :: pieces
         | [] => [String c EmptyString]
         end
end.

(** [parts.join('/')] *)
Definition join (parts : list string) : string := String.concat "/" parts.

(** [array.pop()] read as a value: the last element, if any. *)
Fixpoint pop {A : Type} (l : list A) : option A :=
match l with
| [] => None
| [x] => Some x
| _ :: l' => pop l'
end.

(** [array.map((x, index) => f(x, index))], counting from [index]. *)
Fixpoint mapIndexed {A B : Type} (f : A -> Z -> B) (index : Z) (l : list A) : list B :=
match l with
| [] => []
| x :: l' => f x index :: mapIndexed f (index + 1) l'
end.

(** [s.slice(start)] and [s.slice(start, end)] on a string, with the
    relative indices of [Array.prototype.slice]. *)
Definition sliceString (s : string) (start : Z) (finish : option Z) : string :=
let len := Z.of_nat (String.length s) in
let k := Js.relativeIndex len start in
let final := match finish with
             | Some e => Js.relativeIndex len e
             | None => len
             end in
String.substring (Z.to_nat k) (Z.to_nat (final - k)) s.

(** [key.split('/').filter(Boolean)] *)
Definition segments (key : string) : list string :=
List.filter Js.truthy (split key).

Definition extractName (key : string) : string :=
Js.nullish (pop (segments key)) key.

Definition shortenKey (key : string) : string :=
if (28 <? Z.of_nat (String.length key))%Z
then (sliceString key 0 (Some 12) ++ "...." ++ sliceString key (-12) None)%string
else key.

(** One entry of the breadcrumb trail. *)
Record Breadcrumb := mkBreadcrumb { label : string; prefix : string }.

(** The [breadcrumbs] of [ExplorerPage], from [search.prefix]. *)
Definition breadcrumbs (searchPrefix : option string) : list Breadcrumb :=
let parts := segments (Js.nullish searchPrefix "") in
mapIndexed
  (fun part index =>
     mkBreadcrumb part (join (Js.slice parts 0 (index + 1)) ++ "/")%string)
  0 parts.

(** The effect of [ExplorerPage] that keeps the selection on the page: the
    key that [selectedKey] holds once the effect has run. *)
Definition syncSelection (objects : list ObjectSummary.t) (selectedKey : option string)
  : option string :=
if Js.truthy_opt selectedKey
   && existsb (fun object =>
                 String.eqb (ObjectSummary.key object) (Js.nullish selectedKey ""))
        objects
then selectedKey
else match objects with
     | object :: _ => Some (ObjectSummary.key object)
     | [] => None
     end.

(** [for (let i = start; i <= finish; i++)]: the values of [i]. *)
Definition range (start finish : Z) : list Z :=
map (fun k => start + Z.of_nat k) (seq 0 (Z.to_nat (finish - start + 1))).

(** An element of [pages] in [getVisiblePages]: a page number or ['...']. *)
Inductive PageButton :=
| PageNumber (page : Z)
| Ellipsis.

(** [startItem] and [endItem] of [PaginationControls]. *)
Definition startItem (currentPage itemsPerPage : Z) : Z :=
(currentPage - 1) * itemsPerPage + 1.

Definition endItem (currentPage itemsPerPage totalItems : Z) : Z :=
Z.min (currentPage * itemsPerPage) totalItems.

Definition getVisiblePages (currentPage totalPages : Z) : list PageButton :=
let delta := 1 in
if totalPages <=? 5 then map PageNumber (range 1 totalPages)
else
  let start := Z.max 2 (currentPage - delta) in
  let finish := Z.min (totalPages - 1) (currentPage + delta) in
  [PageNumber 1]
  ++ (if delta + 2 <? currentPage then [Ellipsis] else [])
  ++ map PageNumber (range start finish)
  ++ (if currentPage <? totalPages - delta - 1 then [Ellipsis] else [])
  ++ (if 1 <? totalPages then [PageNumber totalPages] else []).

(** The page numbers among the buttons. *)
Definition pageNumbers (buttons : list PageButton) : list Z :=
flat_map (fun b => match b with
                   | PageNumber page => [page]
                   | Ellipsis => []
                   end) buttons.

(** The path [s1/s2/.../sn/] of the segments [s1 ... sn]. *)
Definition pathOf (segs : list string) : string :=
fold_right (fun seg rest => (seg ++ "/" ++ rest)%string) "" segs.

(** A segment of a path: not empty, and without a slash. *)
Definition isSegment (s : string) : bool := Js.truthy s && noSlash s.

End Ui.

(** The request [{ prefix, limit, cursor }] of [listObjects]. *)
Definition listRequest (prefix : option string) (limit : Z) (cursor : option string)
  : JsValue :=
JObject [ ("prefix", optionalString prefix);
          ("limit", JNumber (JInt limit));
          ("cursor", optionalString cursor) ].

(** The command that [listObjects] sends. *)
Definition listCommand (env : Env) (prefix : option string) (limit : Z)
  (cursor : option string) : ListObjectsV2Input.t :=
ListObjectsV2Input.mk (S3_BUCKET env) (orUndefined (normalizePrefix prefix))
  "/" cursor limit.

(** An optional string field: absent, or a string. *)
Definition optionalStringField (v : JsValue) : bool :=
match v with
| JUndefined | JString _ => true
| _ => false
end.

(** A page number that is given as an integer is a safe integer. *)
Definition safePage (v : JsValue) : bool :=
match v with
| JNumber (JInt z) => z <=? MAX_SAFE_INTEGER
| _ => true
end.

(** A listing request that the schema has nothing to say against: an
    optional string for the prefix; page numbers that are absent or
    positive safe integers; a page size that is absent or a positive
    integer at most 50. *)
Definition wellFormedListing (input : JsValue) : bool :=
match input with
| JObject o =>
    optionalStringField (getField o "prefix")
    && negb (malformedListing input)
    && safePage (getField o "foldersPage")
    && safePage (getField o "filesPage")
| _ => false
end.

(** An access request that the schema has nothing to say against: a
    non-empty string for the key, and one of the two dispositions or none. *)
Definition wellFormedAccess (input : JsValue) : bool :=
match input with
| JObject o =>
    match getField o "key" with
    | JString k => Js.truthy k
    | _ => false
    end
    && match getField o "disposition" with
       | JUndefined => true
       | JString d => String.eqb d "inline" || String.eqb d "attachment"
       | _ => false
       end
| _ => false
end.

(** A [listObjects] request that the schema has nothing to say against. *)
Definition wellFormedList (input : JsValue) : bool :=
match input with
| JObject o =>
    optionalStringField (getField o "prefix")
    && negb (malformedNumber (Some 200) (getField o "limit"))
    && optionalStringField (getField o "cursor")
| _ => false
end.

(** Stores that fail: the listing is refused, the object is not there. *)
Module Failing.

Definition accessDenied : JsError := mkError "AccessDenied" "Access Denied".
Definition notFound : JsError := mkError "NotFound" "UnknownError".

Definition s3Denied : S3Client :=
mkS3Client (fun _ => inl accessDenied) (fun _ => inl accessDenied)
  (fun _ _ => inl accessDenied).

Definition s3Missing : S3Client :=
mkS3Client (fun _ => inr Sample.response) (fun _ => inl notFound)
  (fun input _ => inr ("https://s3.example/" ++ GetObjectInput.Key input)%string).

End Failing.

(** * Properties *)

(** ** Slices and page counts *)

Section Slices.

Context {A : Type}.
Implicit Types l : list A.

Lemma slice_nonneg l (start finish : Z) :
  0 <= start -> 0 <= finish ->
  Js.slice l start finish =
  firstn (Z.to_nat finish - Z.to_nat start) (skipn (Z.to_nat start) l).
Proof.
  intros Hs Hf. unfold Js.slice, Js.relativeIndex.
  destruct (Z.ltb_spec start 0); [lia|].
  destruct (Z.ltb_spec finish 0); [lia|].
  set (len := Z.of_nat (List.length l)).
  destruct (Z.le_gt_cases start len) as [Hle | Hgt].
  - rewrite (Z.min_l start len) by lia.
    destruct (Z.le_gt_cases finish len) as [Hle' | Hgt'].
    + rewrite (Z.min_l finish len) by lia. f_equal. lia.
    + rewrite (Z.min_r finish len) by lia.
      rewrite !firstn_all2; try reflexivity;
        rewrite length_skipn; unfold len in *; lia.
  - rewrite (Z.min_r start len) by lia.
    rewrite !skipn_all2 by (unfold len in *; lia).
    now rewrite !firstn_nil.
Qed.

(** The page [page] of [l], [n] items a page. *)
Lemma slice_page l (page n : Z) :
  1 <= page -> 0 <= n ->
  Js.slice l ((page - 1) * n) ((page - 1) * n + n) =
  firstn (Z.to_nat n) (skipn (Z.to_nat (page - 1) * Z.to_nat n) l).
Proof.
  intros Hp Hn. rewrite slice_nonneg by nia.
  replace (Z.to_nat ((page - 1) * n)) with (Z.to_nat (page - 1) * Z.to_nat n)%nat by nia.
  f_equal. nia.
Qed.

Lemma slice_length_le l (start n : Z) :
  0 <= start -> 0 <= n ->
  Z.of_nat (List.length (Js.slice l start (start + n))) <= n.
Proof.
  intros Hs Hn. rewrite slice_nonneg by lia.
  rewrite length_firstn. lia.
Qed.


Lemma firstn_plus l (n m : nat) :
  firstn (n + m) l = firstn n l ++ firstn m (skipn n l).
Proof.
  revert l; induction n as [|n IH]; intros [|x l]; simpl;
    rewrite ?firstn_nil; try reflexivity.
  now rewrite IH.
Qed.

(** The first [pages] pages, one after the other, are the first
    [pages * n] items. *)
Lemma concat_pages l (n pages : nat) :
  concat (map (fun i => firstn n (skipn ((i - 1) * n) l)) (seq 1 pages)) =
  firstn (pages * n) l.
Proof.
  induction pages as [|k IH].
  - reflexivity.
  - rewrite seq_S, map_app, concat_app, IH. simpl.
    rewrite app_nil_r.
    replace (k - 0)%nat with k by lia.
    replace (n + k * n)%nat with (k * n + n)%nat by lia.
    now rewrite firstn_plus.
Qed.

End Slices.

(** [Js.ceilDiv a b] is the least integer [q] with [a <= q * b]. *)
Lemma ceilDiv_spec (a b : Z) :
  0 < b -> (Js.ceilDiv a b - 1) * b < a <= Js.ceilDiv a b * b.
Proof.
  intros Hb. unfold Js.ceilDiv.
  pose proof (Z.div_mod (- a) b ltac:(lia)) as Hdm.
  pose proof (Z.mod_pos_bound (- a) b Hb) as Hm.
  nia.
Qed.

Lemma ceilDiv_unique (a b q : Z) :
  0 < b -> (q - 1) * b < a <= q * b -> Js.ceilDiv a b = q.
Proof.
  intros Hb Hq. pose proof (ceilDiv_spec a b Hb). nia.
Qed.

Lemma ceilDiv_zero (b : Z) : 0 < b -> Js.ceilDiv 0 b = 0.
Proof. intros Hb. apply ceilDiv_unique; lia. Qed.

Lemma ceilDiv_nonneg (a b : Z) : 0 <= a -> 0 < b -> 0 <= Js.ceilDiv a b.
Proof. intros Ha Hb. pose proof (ceilDiv_spec a b Hb). nia. Qed.

(** The usual integer formula for the rounded-up quotient. *)
Lemma ceilDiv_formula (a b : Z) : 0 < b -> Js.ceilDiv a b = (a + b - 1) / b.
Proof.
  intros Hb. apply ceilDiv_unique; [assumption|].
  pose proof (Z.div_mod (a + b - 1) b ltac:(lia)) as Hdm.
  pose proof (Z.mod_pos_bound (a + b - 1) b Hb) as Hm.
  nia.
Qed.

(** ** Sorting *)

Section Sorting.

Context {A : Type} (comparefn : A -> A -> Z).

Lemma insert_perm (x : A) (l : list A) :
  Permutation (Js.insert comparefn x l) (x :: l).
Proof.
  induction l as [|y l IH]; simpl.
  - reflexivity.
  - destruct (comparefn y x <? 0).
    + rewrite IH. apply perm_swap.
    + reflexivity.
Qed.

Lemma sort_perm (l : list A) : Permutation (Js.sort comparefn l) l.
Proof.
  induction l as [|x l IH]; simpl.
  - reflexivity.
  - unfold Js.sort in *. simpl. rewrite insert_perm. now constructor.
Qed.

(** Entries that the comparator never puts in front of one another keep
    their relative order. *)
Lemma insert_stable (p : A -> bool) (x : A) (l : list A) :
  (forall a b, p a = true -> p b = true -> ~ comparefn b a < 0) ->
  List.filter p (Js.insert comparefn x l) = List.filter p (x :: l).
Proof.
  intros Hp. induction l as [|y l IH]; [reflexivity|].
  simpl. destruct (Z.ltb_spec (comparefn y x) 0) as [Hlt | Hge].
  - simpl. rewrite IH. simpl.
    destruct (p x) eqn:Hx, (p y) eqn:Hy; try reflexivity.
    exfalso. exact (Hp x y Hx Hy Hlt).
  - reflexivity.
Qed.

Lemma sort_stable (p : A -> bool) (l : list A) :
  (forall a b, p a = true -> p b = true -> ~ comparefn b a < 0) ->
  List.filter p (Js.sort comparefn l) = List.filter p l.
Proof.
  intros Hp. induction l as [|x l IH]; [reflexivity|].
  unfold Js.sort in *. simpl fold_right.
  rewrite insert_stable by assumption.
  simpl. now rewrite IH.
Qed.

Hypothesis order : StrictWeakOrder comparefn.

Lemma insert_sorted (x : A) (l : list A) :
  StronglySorted (fun a b => ~ comparefn b a < 0) l ->
  StronglySorted (fun a b => ~ comparefn b a < 0) (Js.insert comparefn x l).
Proof.
  induction 1 as [|y l Hl IH Hy]; simpl.
  - repeat constructor.
  - destruct (Z.ltb_spec (comparefn y x) 0) as [Hlt | Hge].
    + constructor; [assumption|].
      apply (Permutation_Forall (Permutation_sym (insert_perm x l))).
      constructor; [|assumption].
      now apply (swo_asym _ order).
    + constructor.
      * now constructor.
      * constructor; [lia|].
        eapply List.Forall_impl; [|exact Hy].
        intros z Hz. apply (swo_negtrans _ order x y z); [lia|assumption].
Qed.

Lemma sort_sorted (l : list A) :
  StronglySorted (fun a b => ~ comparefn b a < 0) (Js.sort comparefn l).
Proof.
  induction l as [|x l IH]; unfold Js.sort in *; simpl.
  - constructor.
  - now apply insert_sorted.
Qed.

End Sorting.

(** In a sorted list, the order holds between any earlier and any later
    entry. *)
Lemma StronglySorted_split {A : Type} (R : A -> A -> Prop)
  (l1 l2 l3 : list A) (a b : A) :
  StronglySorted R (l1 ++ a :: l2 ++ b :: l3) -> R a b.
Proof.
  induction l1 as [|x l1 IH]; simpl; intros Hs.
  - apply StronglySorted_inv in Hs as [_ Hall].
    rewrite List.Forall_forall in Hall. apply Hall.
    apply in_or_app. right. now left.
  - apply StronglySorted_inv in Hs as [Hs _]. now apply IH.
Qed.

(** A consistent comparator gives [sort] the order it needs. *)
Lemma consistent_strict_weak {A : Type} (comparefn : A -> A -> Z) :
  ConsistentComparator comparefn -> StrictWeakOrder comparefn.
Proof.
  intros [Hanti Htrans]. split.
  - intros x y Hxy Hyx. apply Hanti in Hxy. lia.
  - intros x y z Hyx Hzy Hzx.
    assert (comparefn x y <= 0) as H1.
    { destruct (Z.le_gt_cases (comparefn x y) 0); [assumption|].
      exfalso. apply Hyx. apply Hanti. lia. }
    assert (comparefn y z <= 0) as H2.
    { destruct (Z.le_gt_cases (comparefn y z) 0); [assumption|].
      exfalso. apply Hzy. apply Hanti. lia. }
    pose proof (Htrans x y z H1 H2) as H3.
    apply Hanti in Hzx. lia.
Qed.

(** ** The order of the code units *)

Lemma ltb_lt (a b : string) : String.ltb a b = true <-> String_as_OT.lt a b.
Proof.
  rewrite <- String_as_OT.cmp_lt. unfold String.ltb, String_as_OT.cmp.
  destruct (String.compare a b); split; congruence.
Qed.

Lemma ltb_asym (a b : string) : String.ltb a b = true -> String.ltb b a = false.
Proof.
  intros Hab. destruct (String.ltb b a) eqn:Hba; [|reflexivity].
  apply ltb_lt in Hab, Hba.
  exfalso. apply (String_as_OT.lt_not_eq a a); [|reflexivity].
  now apply (String_as_OT.lt_trans a b a).
Qed.

Lemma ltb_false (a b : string) :
  String.ltb a b = false -> a = b \/ String.ltb b a = true.
Proof.
  unfold String.ltb. rewrite (String.compare_antisym a b).
  destruct (String.compare b a) eqn:Hc; simpl; intros H; try discriminate.
  - left. symmetry. now apply String.compare_eq_iff.
  - now right.
Qed.

Lemma ltb_negtrans (x y z : string) :
  String.ltb x y = false -> String.ltb y z = false -> String.ltb x z = false.
Proof.
  intros Hxy Hyz. destruct (String.ltb x z) eqn:Hxz; [|reflexivity].
  apply ltb_false in Hxy as [-> | Hyx]; [congruence|].
  apply ltb_false in Hyz as [-> | Hzy]; [apply ltb_asym in Hyx; congruence|].
  apply ltb_lt in Hyx, Hzy, Hxz.
  exfalso. apply (String_as_OT.lt_not_eq x x); [|reflexivity].
  apply (String_as_OT.lt_trans x z x); [assumption|].
  now apply (String_as_OT.lt_trans z y x).
Qed.

(** ** Validation of a well-formed listing request *)

Lemma zIntPositive_accepts (p : string) (max : option Z) (d z : Z) :
  0 < z <= MAX_SAFE_INTEGER -> (forall m, max = Some m -> z <= m) ->
  zIntPositive p max d (JNumber (JInt z)) = inr z.
Proof.
  intros Hz Hmax. unfold zIntPositive, numberIssues.
  destruct (Z.ltb_spec MAX_SAFE_INTEGER z); [lia|].
  destruct (Z.ltb_spec z (- MAX_SAFE_INTEGER)); [lia|].
  destruct (Z.leb_spec z 0); [lia|].
  destruct max as [m|]; simpl; [|reflexivity].
  specialize (Hmax m eq_refl).
  destruct (Z.ltb_spec m z); [lia|reflexivity].
Qed.

Lemma zStringOptional_accepts (p : string) (s : option string) :
  zStringOptional p (optionalString s) = inr s.
Proof. now destruct s. Qed.

Lemma paginatedListSchema_accepts (prefix : option string) (fo fi n : Z) :
  0 < fo <= MAX_SAFE_INTEGER -> 0 < fi <= MAX_SAFE_INTEGER -> 0 < n <= 50 ->
  paginatedListSchema (listingRequest prefix fo fi n) =
  inr (PaginatedListRequest.mk prefix fo fi n).
Proof.
  intros Hfo Hfi Hn. unfold paginatedListSchema, listingRequest.
  cbn [getField String.eqb Ascii.eqb Bool.eqb].
  rewrite zStringOptional_accepts.
  rewrite !zIntPositive_accepts; try reflexivity; try assumption;
    try (unfold MAX_SAFE_INTEGER; lia); try discriminate;
    intros m [= <-]; lia.
Qed.

Section Listing.

Variable env : Env.
Variable s3 : S3Client.
Variable localeCompare : string -> string -> Z.

(** What a well-formed request returns when the store answers. *)
Lemma listObjectsPaginated_returns (prefix : option string) (fo fi n : Z)
  (response : ListObjectsV2Output.t) (tr : list Call) :
  0 < fo <= MAX_SAFE_INTEGER -> 0 < fi <= MAX_SAFE_INTEGER -> 0 < n <= 50 ->
  listObjectsV2 s3 (listingCommand env prefix) = inr response ->
  let files := allObjects response in
  let dirs := allFolders localeCompare (normalizePrefix prefix) response in
  listObjectsPaginated env s3 localeCompare (listingRequest prefix fo fi n) tr =
  (inr (PaginatedExplorerResponse.mk (normalizePrefix prefix)
          (Js.slice files ((fi - 1) * n) ((fi - 1) * n + n))
          (Js.slice dirs ((fo - 1) * n) ((fo - 1) * n + n))
          (PageInfo.mk fo (Js.ceilDiv (Z.of_nat (List.length dirs)) n)
             (Z.of_nat (List.length dirs)) n
             (fo <? Js.ceilDiv (Z.of_nat (List.length dirs)) n) (1 <? fo))
          (PageInfo.mk fi (Js.ceilDiv (Z.of_nat (List.length files)) n)
             (Z.of_nat (List.length files)) n
             (fi <? Js.ceilDiv (Z.of_nat (List.length files)) n) (1 <? fi))
          (booleanOf (ListObjectsV2Output.IsTruncated response))
          (ListObjectsV2Output.NextContinuationToken response)),
   tr ++ [ListObjectsV2Command (listingCommand env prefix)]).
Proof.
  intros Hfo Hfi Hn Hstore files dirs.
  unfold listObjectsPaginated, createServerFn.
  rewrite paginatedListSchema_accepts by assumption.
  unfold listObjectsPaginatedHandler, bind, sendListObjectsV2, await, ret.
  cbn [PaginatedListRequest.prefix PaginatedListRequest.foldersPage
       PaginatedListRequest.filesPage PaginatedListRequest.itemsPerPage].
  fold (listingCommand env prefix). rewrite Hstore. reflexivity.
Qed.

End Listing.

(** ** Pagination *)

(** The full lists are no longer than the arrays of the answer. *)
Lemma allObjects_length (response : ListObjectsV2Output.t) :
  (List.length (allObjects response) <=
   List.length (Js.nullish (ListObjectsV2Output.Contents response) []))%nat.
Proof.
  unfold allObjects. rewrite (Permutation_length (sort_perm _ _)).
  unfold safeMapObjects. rewrite List.length_map. apply List.filter_length_le.
Qed.

Lemma allFolders_length (localeCompare : string -> string -> Z) (prefix : string)
  (response : ListObjectsV2Output.t) :
  (List.length (allFolders localeCompare prefix response) <=
   List.length (Js.nullish (ListObjectsV2Output.CommonPrefixes response) []))%nat.
Proof.
  unfold allFolders. rewrite (Permutation_length (sort_perm _ _)).
  unfold mapFolders. rewrite List.length_map.
  etransitivity; [apply List.filter_length_le|]. now rewrite List.length_map.
Qed.

(** C1. For a request with [itemsPerPage] between 1 and 50 and any answer
    of the store, both page counts are the item counts divided by
    [itemsPerPage] and rounded up (0 for no item), no page is longer than
    [itemsPerPage], and the pages 1 to [totalPages], one after the other,
    are the full sorted list: for the files whatever the page of folders
    asked for, and for the folders whatever the page of files. A page
    number of a valid request is a safe integer, and the lists of the
    answer are arrays. *)
Theorem pagination_covers_listing (env : Env) (s3 : S3Client)
  (localeCompare : string -> string -> Z) (prefix : option string)
  (itemsPerPage : Z) (response : ListObjectsV2Output.t) :
  1 <= itemsPerPage <= 50 ->
  listObjectsV2 s3 (listingCommand env prefix) = inr response ->
  isArray (Js.nullish (ListObjectsV2Output.Contents response) []) = true ->
  isArray (Js.nullish (ListObjectsV2Output.CommonPrefixes response) []) = true ->
  let files := allObjects response in
  let dirs := allFolders localeCompare (normalizePrefix prefix) response in
  let filesPages := Js.ceilDiv (Z.of_nat (List.length files)) itemsPerPage in
  let dirsPages := Js.ceilDiv (Z.of_nat (List.length dirs)) itemsPerPage in
  let call fo fi :=
    listObjectsPaginated env s3 localeCompare
      (listingRequest prefix fo fi itemsPerPage) [] in
  isCeiling filesPages (Z.of_nat (List.length files)) itemsPerPage /\
  isCeiling dirsPages (Z.of_nat (List.length dirs)) itemsPerPage /\
  (files = [] -> filesPages = 0) /\
  (dirs = [] -> dirsPages = 0) /\
  (forall fo fi, 1 <= fo <= MAX_SAFE_INTEGER -> 1 <= fi <= MAX_SAFE_INTEGER ->
     exists r, fst (call fo fi) = inr r /\
       PageInfo.totalItems (PaginatedExplorerResponse.filesPagination r) =
         Z.of_nat (List.length files) /\
       PageInfo.totalItems (PaginatedExplorerResponse.foldersPagination r) =
         Z.of_nat (List.length dirs) /\
       PageInfo.totalPages (PaginatedExplorerResponse.filesPagination r) =
         filesPages /\
       PageInfo.totalPages (PaginatedExplorerResponse.foldersPagination r) =
         dirsPages /\
       Z.of_nat (List.length (PaginatedExplorerResponse.objects r)) <= itemsPerPage /\
       Z.of_nat (List.length (PaginatedExplorerResponse.folders r)) <= itemsPerPage) /\
  (forall fo, 1 <= fo <= MAX_SAFE_INTEGER ->
     concat (map (fun i => objectsOf (call fo (Z.of_nat i)))
               (seq 1 (Z.to_nat filesPages))) = files) /\
  (forall fi, 1 <= fi <= MAX_SAFE_INTEGER ->
     concat (map (fun i => foldersOf (call (Z.of_nat i) fi))
               (seq 1 (Z.to_nat dirsPages))) = dirs).
Proof.
  intros Hn Hstore Hcontents Hprefixes files dirs filesPages dirsPages call.
  assert (isCeiling filesPages (Z.of_nat (List.length files)) itemsPerPage) as Hcf
    by (apply ceilDiv_spec; lia).
  assert (isCeiling dirsPages (Z.of_nat (List.length dirs)) itemsPerPage) as Hcd
    by (apply ceilDiv_spec; lia).
  assert (filesPages <= MAX_SAFE_INTEGER) as Hsf.
  { pose proof (allObjects_length response) as Hlen. fold files in Hlen.
    apply Z.leb_le in Hcontents. unfold isCeiling in Hcf.
    unfold MAX_ARRAY_LENGTH in Hcontents. unfold MAX_SAFE_INTEGER. nia. }
  assert (dirsPages <= MAX_SAFE_INTEGER) as Hsd.
  { pose proof (allFolders_length localeCompare (normalizePrefix prefix) response)
      as Hlen. fold dirs in Hlen.
    apply Z.leb_le in Hprefixes. unfold isCeiling in Hcd.
    unfold MAX_ARRAY_LENGTH in Hprefixes. unfold MAX_SAFE_INTEGER. nia. }
  assert (forall fo fi, 1 <= fo <= MAX_SAFE_INTEGER -> 1 <= fi <= MAX_SAFE_INTEGER ->
            call fo fi =
            (inr (PaginatedExplorerResponse.mk (normalizePrefix prefix)
                    (Js.slice files ((fi - 1) * itemsPerPage)
                       ((fi - 1) * itemsPerPage + itemsPerPage))
                    (Js.slice dirs ((fo - 1) * itemsPerPage)
                       ((fo - 1) * itemsPerPage + itemsPerPage))
                    (PageInfo.mk fo dirsPages (Z.of_nat (List.length dirs))
                       itemsPerPage (fo <? dirsPages) (1 <? fo))
                    (PageInfo.mk fi filesPages (Z.of_nat (List.length files))
                       itemsPerPage (fi <? filesPages) (1 <? fi))
                    (booleanOf (ListObjectsV2Output.IsTruncated response))
                    (ListObjectsV2Output.NextContinuationToken response)),
             [] ++ [ListObjectsV2Command (listingCommand env prefix)])) as Hcall.
  { intros fo fi Hfo Hfi. unfold call.
    now apply listObjectsPaginated_returns; try lia. }
  assert (forall (A : Type) (l : list A),
            concat (map (fun i =>
                           Js.slice l ((Z.of_nat i - 1) * itemsPerPage)
                             ((Z.of_nat i - 1) * itemsPerPage + itemsPerPage))
                      (seq 1 (Z.to_nat (Js.ceilDiv (Z.of_nat (List.length l)) itemsPerPage))))
            = l) as Hcat.
  { intros A l.
    pose proof (ceilDiv_spec (Z.of_nat (List.length l)) itemsPerPage ltac:(lia)) as Hc.
    set (pages := Js.ceilDiv (Z.of_nat (List.length l)) itemsPerPage) in *.
    rewrite (map_ext_in _
               (fun i => firstn (Z.to_nat itemsPerPage)
                           (skipn ((i - 1) * Z.to_nat itemsPerPage) l))).
    - rewrite concat_pages. apply firstn_all2. nia.
    - intros i Hi. apply in_seq in Hi.
      rewrite slice_page by lia. do 2 f_equal. lia. }
  split; [exact Hcf|]. split; [exact Hcd|].
  split; [intros Hnil; unfold filesPages; rewrite Hnil; apply ceilDiv_zero; lia|].
  split; [intros Hnil; unfold dirsPages; rewrite Hnil; apply ceilDiv_zero; lia|].
  split; [|split].
  - intros fo fi Hfo Hfi. eexists. rewrite (Hcall fo fi Hfo Hfi). simpl.
    split; [reflexivity|]. do 4 (split; [reflexivity|]).
    split; apply slice_length_le; nia.
  - intros fo Hfo. etransitivity; [|exact (Hcat _ files)]. fold filesPages.
    apply f_equal, map_ext_in. intros i Hi. apply in_seq in Hi.
    unfold objectsOf. now rewrite Hcall by lia.
  - intros fi Hfi. etransitivity; [|exact (Hcat _ dirs)]. fold dirsPages.
    apply f_equal, map_ext_in. intros i Hi. apply in_seq in Hi.
    unfold foldersOf. now rewrite Hcall by lia.
Qed.

Lemma pagination_covers_listing_witness :
  let call fi :=
    listObjectsPaginated Sample.env Sample.s3 Sample.localeCompare
      (listingRequest (Some "docs") 1 fi 2) [] in
  1 <= 2 <= 50 /\
  isArray Sample.contents = true /\
  isArray Sample.commonPrefixes = true /\
  objectsOf (call 1) ++ objectsOf (call 2) = allObjects Sample.response.
Proof.
  split; [lia|]. split; [reflexivity|]. split; [reflexivity|].
  destruct (pagination_covers_listing Sample.env Sample.s3 Sample.localeCompare
              (Some "docs") 2 Sample.response ltac:(lia) eq_refl eq_refl eq_refl)
    as (_ & _ & _ & _ & _ & Hfiles & _).
  specialize (Hfiles 1 ltac:(unfold MAX_SAFE_INTEGER; lia)).
  vm_compute in Hfiles |- *. exact Hfiles.
Defined.



(** ** What a returned listing is made of *)

Lemma slice_infix {A : Type} (l : list A) (start finish : Z) :
  exists pre post, l = pre ++ Js.slice l start finish ++ post.
Proof.
  unfold Js.slice.
  set (k := Z.to_nat (Js.relativeIndex _ start)).
  set (c := Z.to_nat (_ - _)).
  exists (firstn k l), (skipn c (skipn k l)).
  now rewrite !firstn_skipn.
Qed.

Lemma listObjectsPaginated_inv (env : Env) (s3 : S3Client)
  (localeCompare : string -> string -> Z) (input : JsValue) (tr tr' : list Call)
  (r : PaginatedExplorerResponse.t) :
  listObjectsPaginated env s3 localeCompare input tr = (inr r, tr') ->
  exists data response,
    paginatedListSchema input = inr data /\
    listObjectsV2 s3 (listingCommand env (PaginatedListRequest.prefix data)) =
      inr response /\
    tr' = tr ++ [ListObjectsV2Command
                   (listingCommand env (PaginatedListRequest.prefix data))] /\
    PaginatedExplorerResponse.prefix r =
      normalizePrefix (PaginatedListRequest.prefix data) /\
    (exists start finish,
       PaginatedExplorerResponse.objects r =
       Js.slice (allObjects response) start finish) /\
    (exists start finish,
       PaginatedExplorerResponse.folders r =
       Js.slice (allFolders localeCompare
                   (normalizePrefix (PaginatedListRequest.prefix data)) response)
         start finish).
Proof.
  unfold listObjectsPaginated, createServerFn.
  destruct (paginatedListSchema input) as [issues | data]; [discriminate|].
  unfold listObjectsPaginatedHandler, bind, sendListObjectsV2, await, ret.
  fold (listingCommand env (PaginatedListRequest.prefix data)).
  destruct (listObjectsV2 s3 _) as [e | response] eqn:Hstore; [discriminate|].
  intros [= <- <-]. exists data, response. simpl. eauto 12.
Qed.

(** ** The order of the objects *)

Lemma compareObjects_negative (a b : ObjectSummary.t) :
  compareObjects a b < 0 <->
  exists ta, ObjectSummary.lastModified a = Some ta /\ Js.truthy ta = true /\
    (Js.truthy_opt (ObjectSummary.lastModified b) = false \/
     exists tb, ObjectSummary.lastModified b = Some tb /\ String.ltb tb ta = true).
Proof.
  unfold compareObjects, Js.gt.
  destruct (ObjectSummary.lastModified a) as [ta|],
           (ObjectSummary.lastModified b) as [tb|]; simpl.
  - destruct (Js.truthy ta) eqn:Hta, (Js.truthy tb) eqn:Htb; simpl.
    + destruct (String.ltb tb ta) eqn:Hlt; split; try lia.
      * intros _. exists ta. eauto 6.
      * intros (? & [= <-] & _ & [? | (? & [= <-] & ?)]); congruence.
    + split; [intros _; exists ta; eauto|lia].
    + split; [lia|]. intros (? & [= <-] & ? & _). congruence.
    + split; [lia|]. intros (? & [= <-] & ? & _). congruence.
  - destruct (Js.truthy ta) eqn:Hta; simpl.
    + split; [intros _; exists ta; eauto|lia].
    + split; [lia|]. intros (? & [= <-] & ? & _). congruence.
  - destruct (Js.truthy tb); simpl; (split; [lia|]); intros (? & ? & _); congruence.
  - split; [lia|]. intros (? & ? & _). congruence.
Qed.

Lemma compareObjects_order : StrictWeakOrder compareObjects.
Proof.
  split.
  - intros x y Hxy Hyx.
    apply compareObjects_negative in Hxy as (tx & Hx & Htx & Hxy).
    apply compareObjects_negative in Hyx as (ty & Hy & Hty & Hyx).
    rewrite Hx in Hyx. rewrite Hy in Hxy. simpl in *.
    destruct Hxy as [? | (? & [= <-] & Hxy)]; [congruence|].
    destruct Hyx as [? | (? & [= <-] & Hyx)]; [congruence|].
    apply ltb_asym in Hxy. congruence.
  - intros x y z Hyx Hzy Hzx.
    apply compareObjects_negative in Hzx as (tz & Hz & Htz & Hzx).
    assert (exists ty, ObjectSummary.lastModified y = Some ty /\
                       Js.truthy ty = true /\ String.ltb ty tz = false)
      as (ty & Hy & Hty & Hyz).
    { destruct (ObjectSummary.lastModified y) as [ty|] eqn:Hy.
      - destruct (Js.truthy ty) eqn:Hty.
        + exists ty. repeat split; try assumption.
          destruct (String.ltb ty tz) eqn:Hlt; [|reflexivity].
          exfalso. apply Hzy. apply compareObjects_negative.
          exists tz. rewrite Hy. eauto 6.
        + exfalso. apply Hzy. apply compareObjects_negative.
          exists tz. rewrite Hy. simpl. eauto.
      - exfalso. apply Hzy. apply compareObjects_negative.
        exists tz. rewrite Hy. simpl. eauto. }
    assert (exists tx, ObjectSummary.lastModified x = Some tx /\
                       Js.truthy tx = true /\ String.ltb tx ty = false)
      as (tx & Hx & Htx & Hxy).
    { destruct (ObjectSummary.lastModified x) as [tx|] eqn:Hx.
      - destruct (Js.truthy tx) eqn:Htx.
        + exists tx. repeat split; try assumption.
          destruct (String.ltb tx ty) eqn:Hlt; [|reflexivity].
          exfalso. apply Hyx. apply compareObjects_negative.
          exists ty. rewrite Hx. eauto 6.
        + exfalso. apply Hyx. apply compareObjects_negative.
          exists ty. rewrite Hx. simpl. eauto.
      - exfalso. apply Hyx. apply compareObjects_negative.
        exists ty. rewrite Hx. simpl. eauto. }
    rewrite Hx in Hzx. simpl in Hzx. rewrite Htx in Hzx.
    destruct Hzx as [? | (? & [= <-] & Hzx)]; [congruence|].
    pose proof (ltb_negtrans tx ty tz Hxy Hyz). congruence.
Qed.

(** The dates of the mapped entries are renderings of [Date]s. *)
Lemma safeMapObjects_dates (objects : option (list S3Object.t)) :
  Forall (fun e => forall t, ObjectSummary.lastModified e = Some t ->
                             Js.truthy t = true)
         (safeMapObjects objects).
Proof.
  unfold safeMapObjects. apply List.Forall_forall. intros e He.
  apply in_map_iff in He as (o & <- & _). simpl.
  destruct (S3Object.LastModified o) as [d|]; simpl; intros t [= <-].
  apply iso_nonempty.
Qed.

Lemma allObjects_latestFirst (response : ListObjectsV2Output.t) :
  latestFirst (allObjects response).
Proof.
  intros l1 a l2 b l3 Hsplit.
  pose proof (sort_sorted compareObjects compareObjects_order
                (safeMapObjects (ListObjectsV2Output.Contents response))) as Hs.
  fold (allObjects response) in Hs. rewrite Hsplit in Hs.
  apply StronglySorted_split in Hs.
  assert (Forall (fun e => forall t, ObjectSummary.lastModified e = Some t ->
                                     Js.truthy t = true)
                 (allObjects response)) as Hdates.
  { eapply Permutation_Forall; [|apply safeMapObjects_dates].
    symmetry. apply sort_perm. }
  rewrite Hsplit in Hdates. rewrite List.Forall_forall in Hdates.
  assert (In a (l1 ++ a :: l2 ++ b :: l3)) as Ha
    by (apply in_or_app; right; now left).
  assert (In b (l1 ++ a :: l2 ++ b :: l3)) as Hb
    by (apply in_or_app; right; right; apply in_or_app; right; now left).
  split.
  - intros ta tb Hta Htb. unfold Js.gt.
    destruct (String.ltb ta tb) eqn:Hlt; [|reflexivity].
    exfalso. apply Hs. apply compareObjects_negative.
    pose proof (Hdates b Hb tb Htb). exists tb. rewrite Hta. eauto 8.
  - intros Hna. destruct (ObjectSummary.lastModified b) as [tb|] eqn:Htb;
      [|reflexivity].
    exfalso. apply Hs. apply compareObjects_negative.
    pose proof (Hdates b Hb tb Htb). exists tb. rewrite Hna. simpl. eauto.
Qed.

Lemma latestFirst_infix (pre l post : list ObjectSummary.t) :
  latestFirst (pre ++ l ++ post) -> latestFirst l.
Proof.
  intros H l1 a l2 b l3 ->.
  apply (H (pre ++ l1) a l2 b (l3 ++ post)).
  now rewrite <- !app_assoc, <- !app_comm_cons, <- !app_assoc.
Qed.

Lemma undated_keep_fetch_order (response : ListObjectsV2Output.t) :
  List.filter undated (allObjects response) =
  List.filter undated (safeMapObjects (ListObjectsV2Output.Contents response)).
Proof.
  apply sort_stable. intros a b Ha Hb Hlt.
  apply compareObjects_negative in Hlt as (tb & Htb & _).
  unfold undated in Hb. now rewrite Htb in Hb.
Qed.

(** C3. In a returned listing the objects come latest first and the
    undated ones last: the page is a run of consecutive entries of the full
    list, which is a reordering of the fetched entries where no dated entry
    comes after an earlier dated one or after an undated one, and where the
    undated entries are in the order in which they were fetched. *)
Theorem objects_sorted_latest_first (env : Env) (s3 : S3Client)
  (localeCompare : string -> string -> Z) (input : JsValue)
  (r : PaginatedExplorerResponse.t) (tr : list Call) :
  listObjectsPaginated env s3 localeCompare input [] = (inr r, tr) ->
  exists data response pre post,
    paginatedListSchema input = inr data /\
    listObjectsV2 s3 (listingCommand env (PaginatedListRequest.prefix data)) =
      inr response /\
    allObjects response = pre ++ PaginatedExplorerResponse.objects r ++ post /\
    Permutation (allObjects response)
      (safeMapObjects (ListObjectsV2Output.Contents response)) /\
    latestFirst (allObjects response) /\
    latestFirst (PaginatedExplorerResponse.objects r) /\
    List.filter undated (allObjects response) =
      List.filter undated
        (safeMapObjects (ListObjectsV2Output.Contents response)).
Proof.
  intros Hrun.
  apply listObjectsPaginated_inv in Hrun
    as (data & response & Hdata & Hstore & _ & _ & (start & finish & Hobjs) & _).
  destruct (slice_infix (allObjects response) start finish) as (pre & post & Hinfix).
  rewrite <- Hobjs in Hinfix.
  exists data, response, pre, post.
  split; [exact Hdata|]. split; [exact Hstore|]. split; [exact Hinfix|].
  split; [apply sort_perm|].
  split; [apply allObjects_latestFirst|].
  split; [|apply undated_keep_fetch_order].
  apply (latestFirst_infix pre _ post). rewrite <- Hinfix.
  apply allObjects_latestFirst.
Qed.

Lemma objects_sorted_latest_first_witness :
  exists r tr,
    listObjectsPaginated Sample.env Sample.s3 Sample.localeCompare
      (listingRequest (Some "docs") 1 1 2) [] = (inr r, tr) /\
    map ObjectSummary.key (PaginatedExplorerResponse.objects r) =
      ["docs/b"; "docs/a"] /\
    latestFirst (PaginatedExplorerResponse.objects r).
Proof.
  eexists. eexists. split; [reflexivity|]. split; [reflexivity|].
  destruct (objects_sorted_latest_first Sample.env Sample.s3 Sample.localeCompare
              (listingRequest (Some "docs") 1 1 2) _ _ eq_refl)
    as (_ & _ & _ & _ & _ & _ & _ & _ & _ & Hpage & _).
  exact Hpage.
Defined.

(** ** Folders *)

Lemma replace_unfold (s search replacement : string) :
  Js.replace s search replacement =
  if String.prefix search s
  then (replacement ++ Js.dropChars (String.length search) s)%string
  else match s with
       | EmptyString => EmptyString
       | String c s' => String c (Js.replace s' search replacement)
       end.
Proof. now destruct s. Qed.

Lemma prefix_append (p rest : string) : String.prefix p (p ++ rest) = true.
Proof.
  induction p as [|c p IH]; simpl.
  - now destruct rest.
  - destruct (ascii_dec c c); [assumption|congruence].
Qed.

Lemma dropChars_append (p rest : string) :
  Js.dropChars (String.length p) (p ++ rest) = rest.
Proof. induction p as [|c p IH]; simpl; [reflexivity|assumption]. Qed.

(** Removing the queried prefix from a string that starts with it leaves
    the remainder. *)
Lemma replace_leading (p rest : string) : Js.replace (p ++ rest) p "" = rest.
Proof.
  rewrite replace_unfold, prefix_append, dropChars_append. reflexivity.
Qed.

Lemma stripTrailingSlash_append (seg : string) :
  Js.stripTrailingSlash (seg ++ "/") = seg.
Proof.
  induction seg as [|c seg IH]; [reflexivity|].
  simpl. rewrite IH. now destruct seg.
Qed.

Lemma endsWithSlash_append (s : string) : Js.endsWithSlash (s ++ "/") = true.
Proof.
  induction s as [|c s IH]; [reflexivity|].
  simpl. rewrite IH. now destruct s.
Qed.

Lemma endsWithSlash_append_nonempty (p s : string) :
  s <> "" -> Js.endsWithSlash (p ++ s) = Js.endsWithSlash s.
Proof.
  intros Hs. induction p as [|c p IH]; [reflexivity|].
  simpl. rewrite IH. destruct (p ++ s)%string eqn:Heq; [|reflexivity].
  destruct p; simpl in Heq; congruence.
Qed.

Lemma noSlash_endsWithSlash (seg : string) :
  noSlash seg = true -> Js.endsWithSlash seg = false.
Proof.
  induction seg as [|c seg IH]; [reflexivity|].
  simpl. intros [Hc Hseg]%andb_prop. rewrite (IH Hseg).
  destruct seg; [|reflexivity]. now apply negb_true_iff.
Qed.

Lemma sample_localeCompare_consistent : ConsistentComparator Sample.localeCompare.
Proof.
  assert (forall x y, Sample.localeCompare x y <= 0 <-> String.ltb y x = false) as Hle.
  { intros x y. unfold Sample.localeCompare, String.ltb.
    rewrite (String.compare_antisym x y).
    destruct (String.compare y x); simpl; split; (lia || congruence). }
  split.
  - intros x y. unfold Sample.localeCompare.
    rewrite (String.compare_antisym x y).
    destruct (String.compare y x); simpl; lia.
  - intros x y z Hxy Hyz. apply Hle in Hxy, Hyz. apply Hle.
    now apply (ltb_negtrans z y x).
Qed.

Lemma append_assoc (a b c : string) : ((a ++ b) ++ c = a ++ (b ++ c))%string.
Proof. induction a as [|x a IH]; simpl; [reflexivity|now rewrite IH]. Qed.

Lemma append_slash_nonempty (seg : string) : (seg ++ "/")%string <> "".
Proof. now destruct seg. Qed.

Lemma StronglySorted_weaken {A : Type} (R R' : A -> A -> Prop) (l : list A) :
  (forall a b, R a b -> R' a b) -> StronglySorted R l -> StronglySorted R' l.
Proof.
  intros HR. induction 1 as [|x l Hl IH Hx]; constructor.
  - assumption.
  - eapply List.Forall_impl; [|exact Hx]. intros b. apply HR.
Qed.

(** The entries of [mapFolders]: one for each common prefix whose name,
    once the queried prefix is removed, is neither empty nor the prefix. *)
Lemma mapFolders_In (prefix : string) (commonPrefixes : option (list CommonPrefix.t))
  (f : FolderSummary.t) :
  In f (mapFolders prefix commonPrefixes) <->
  exists e name,
    In e (Js.nullish commonPrefixes []) /\
    name = match CommonPrefix.Prefix e with
           | Some p => Js.replace p prefix ""
           | None => ""
           end /\
    name <> "" /\ name <> prefix /\
    f = FolderSummary.mk (Js.stripTrailingSlash name) (prefix ++ name)%string.
Proof.
  unfold mapFolders. rewrite in_map_iff. split.
  - intros (name & <- & Hin). apply filter_In in Hin as [Hin Hkeep].
    apply in_map_iff in Hin as (e & <- & He).
    apply andb_prop in Hkeep as [Ht Hne].
    exists e. eexists. repeat split; try eassumption.
    + intros Heq. rewrite Heq in Ht. discriminate.
    + apply negb_true_iff, String.eqb_neq in Hne. exact Hne.
  - intros (e & name & He & -> & Hne & Hnp & ->).
    eexists. split; [reflexivity|].
    apply filter_In. split.
    + apply in_map_iff. exists e. split; [reflexivity|assumption].
    + apply andb_true_intro. split.
      * destruct (match CommonPrefix.Prefix e with
                  | Some p => Js.replace p prefix ""
                  | None => ""
                  end); [congruence|reflexivity].
      * apply negb_true_iff, String.eqb_neq. assumption.
Qed.

Lemma append_cancel (s a b : string) : (s ++ a)%string = (s ++ b)%string -> a = b.
Proof.
  induction s as [|c s IH]; simpl; [auto|]. intros [= H]. auto.
Qed.

(** [mapFolders], entry by entry. *)
Lemma mapFolders_entries (prefix : string)
  (commonPrefixes : option (list CommonPrefix.t)) :
  let stripped (e : CommonPrefix.t) :=
    match CommonPrefix.Prefix e with
    | Some p => Js.replace p prefix ""
    | None => ""
    end in
  mapFolders prefix commonPrefixes =
  map (fun e =>
         FolderSummary.mk (Js.stripTrailingSlash (stripped e))
           (prefix ++ stripped e)%string)
      (List.filter (fun e => Js.truthy (stripped e)
                             && negb (String.eqb (stripped e) prefix))
         (Js.nullish commonPrefixes [])).
Proof.
  intros stripped. unfold mapFolders. fold stripped.
  induction (Js.nullish commonPrefixes []) as [|e l IH]; [reflexivity|].
  cbn [map List.filter].
  destruct (Js.truthy (stripped e) && negb (String.eqb (stripped e) prefix));
    cbn [map]; now rewrite IH.
Qed.

(** C4, as the code has it. Whatever the store answers, a folder is made
    from each common prefix by removing the queried prefix, which gives its
    name once the trailing slash is dropped, unless what is left is empty or
    is the queried prefix itself; and the folders are in ascending order of
    [localeCompare] on their names, for a consistent [localeCompare]. For
    each common prefix that is the queried prefix followed by one segment
    and a slash, the entry is discarded when the segment and its slash are
    the queried prefix, and only then; its folder has the segment for name,
    without a trailing slash, and the prefix [queriedPrefix + name + "/"],
    which begins with the queried prefix and ends with a slash, and with
    exactly one when the name is not empty. *)
Theorem folders_from_common_prefixes
  (localeCompare : string -> string -> Z) (prefix : string)
  (response : ListObjectsV2Output.t) :
  let commonPrefixes :=
    Js.nullish (ListObjectsV2Output.CommonPrefixes response) [] in
  let stripped (e : CommonPrefix.t) :=
    match CommonPrefix.Prefix e with
    | Some p => Js.replace p prefix ""
    | None => ""
    end in
  let folderOf (e : CommonPrefix.t) :=
    FolderSummary.mk (Js.stripTrailingSlash (stripped e))
      (prefix ++ stripped e)%string in
  let folders := allFolders localeCompare prefix response in
  Permutation folders
    (map folderOf
       (List.filter (fun e => negb (String.eqb (stripped e) "")
                              && negb (String.eqb (stripped e) prefix))
          commonPrefixes)) /\
  (forall f, In f folders <->
     exists e,
       In e commonPrefixes /\ stripped e <> "" /\ stripped e <> prefix /\
       f = folderOf e) /\
  (ConsistentComparator localeCompare ->
   StronglySorted
     (fun f g => localeCompare (FolderSummary.name f) (FolderSummary.name g) <= 0)
     folders) /\
  (forall e seg,
     In e commonPrefixes ->
     CommonPrefix.Prefix e = Some (prefix ++ seg ++ "/")%string ->
     noSlash seg = true ->
     stripped e = (seg ++ "/")%string /\
     (In (folderOf e) folders <-> (seg ++ "/")%string <> prefix) /\
     FolderSummary.name (folderOf e) = seg /\
     Js.endsWithSlash (FolderSummary.name (folderOf e)) = false /\
     FolderSummary.prefix (folderOf e) =
       (prefix ++ FolderSummary.name (folderOf e) ++ "/")%string /\
     Js.endsWithSlash (FolderSummary.prefix (folderOf e)) = true /\
     (FolderSummary.name (folderOf e) <> "" ->
      oneTrailingSlash (FolderSummary.prefix (folderOf e)) = true)).
Proof.
  intros commonPrefixes stripped folderOf folders.
  set (byName := fun a b : FolderSummary.t =>
                   localeCompare (FolderSummary.name a) (FolderSummary.name b)).
  assert (Permutation folders
            (mapFolders prefix (ListObjectsV2Output.CommonPrefixes response)))
    as Hperm by apply sort_perm.
  assert (forall f, In f folders <->
            exists e,
              In e commonPrefixes /\ stripped e <> "" /\ stripped e <> prefix /\
              f = folderOf e) as Hin.
  { intros f. split.
    - intros Hf. apply (Permutation_in _ Hperm) in Hf.
      apply mapFolders_In in Hf as (e & name & He & -> & Hne & Hnp & ->).
      exists e. repeat split; assumption.
    - intros (e & He & Hne & Hnp & ->).
      apply (Permutation_in _ (Permutation_sym Hperm)).
      apply mapFolders_In. exists e, (stripped e). repeat split; assumption. }
  split; [|split; [exact Hin|split]].
  - rewrite Hperm, mapFolders_entries. fold commonPrefixes stripped folderOf.
    erewrite List.filter_ext; [reflexivity|].
    intros e. cbn beta.
    fold (stripped e). now destruct (stripped e).
  - intros Hcc.
    assert (ConsistentComparator byName) as Hby.
    { destruct Hcc as [Hanti Htrans]. split; unfold byName.
      - intros x y. apply Hanti.
      - intros x y z. apply Htrans. }
    apply (StronglySorted_weaken (fun a b => ~ byName b a < 0)).
    + intros a b Hab. unfold byName in *.
      destruct (Z.le_gt_cases
                  (localeCompare (FolderSummary.name a) (FolderSummary.name b)) 0)
        as [Hle | Hgt]; [assumption|].
      exfalso. apply Hab. apply (cc_antisym _ Hcc). lia.
    + apply sort_sorted. now apply consistent_strict_weak.
  - intros e seg He Hp Hseg.
    assert (stripped e = (seg ++ "/")%string) as Hs.
    { unfold stripped. rewrite Hp. apply replace_leading. }
    assert (Js.endsWithSlash (prefix ++ seg ++ "/") = true) as Hends.
    { rewrite endsWithSlash_append_nonempty by apply append_slash_nonempty.
      apply endsWithSlash_append. }
    unfold folderOf. rewrite Hs, stripTrailingSlash_append.
    cbn [FolderSummary.name FolderSummary.prefix].
    split; [reflexivity|]. split; [|split; [reflexivity|]].
    + split.
      * intros Hf. apply Hin in Hf as (e' & _ & _ & Hnp & Hf).
        unfold folderOf in Hf. injection Hf as _ Hf.
        apply append_cancel in Hf. congruence.
      * intros Hnp. apply Hin. exists e. rewrite Hs.
        split; [exact He|]. split; [apply append_slash_nonempty|].
        split; [exact Hnp|]. unfold folderOf.
        now rewrite Hs, stripTrailingSlash_append.
    + split; [now apply noSlash_endsWithSlash|].
      split; [reflexivity|]. split; [exact Hends|].
      intros Hne. unfold oneTrailingSlash. rewrite Hends. simpl.
      rewrite <- append_assoc, stripTrailingSlash_append.
      rewrite endsWithSlash_append_nonempty by assumption.
      now rewrite noSlash_endsWithSlash.
Qed.

Lemma folders_from_common_prefixes_witness :
  let folders := allFolders Sample.localeCompare "docs/" Sample.response in
  map FolderSummary.name folders = ["css"; "img"] /\
  StronglySorted
    (fun f g =>
       Sample.localeCompare (FolderSummary.name f) (FolderSummary.name g) <= 0)
    folders /\
  In (FolderSummary.mk "img" "docs/img/") folders /\
  oneTrailingSlash "docs/img/" = true.
Proof.
  split; [reflexivity|].
  destruct (folders_from_common_prefixes Sample.localeCompare "docs/"
              Sample.response) as (_ & _ & Hsorted & Hentry).
  split; [exact (Hsorted sample_localeCompare_consistent)|].
  destruct (Hentry (CommonPrefix.mk (Some "docs/img/")) "img"
              ltac:(simpl; auto) eq_refl eq_refl)
    as (_ & Hkept & _ & _ & _ & _ & Hone).
  split; [apply Hkept; discriminate | apply Hone; discriminate].
Defined.

(** C4, as stated, fails on the key [docs//x]: listed under [docs/], it
    gives a folder with the empty name whose prefix [docs//] ends with two
    slashes. *)
Lemma folder_prefix_with_two_slashes :
  let folders :=
    foldersOf (listObjectsPaginated Sample.env Sample.s3EmptySegment
                 Sample.localeCompare (listingRequest (Some "docs/") 1 1 10) []) in
  folders = [FolderSummary.mk "" "docs//"] /\
  ~ Forall (fun f => oneTrailingSlash (FolderSummary.prefix f) = true) folders.
Proof.
  split; [reflexivity|].
  intros Hall. apply Forall_inv in Hall. discriminate Hall.
Qed.

(** ** The hook: the last selection wins *)

(** Reads the fields of an instance that is written out, and nothing else:
    the maps stay as they are. *)
Ltac proj :=
  cbn [Hook.state Hook.deps Hook.cleanup Hook.aborted Hook.fetches Hook.runs].

Lemma hook_init_invariant : Hook.Invariant Hook.init.
Proof.
  split; simpl; try discriminate; try reflexivity;
    intros r k Hr; now rewrite lookup_empty in Hr.
Qed.

Lemma hook_render_invariant (h : Hook.t) (key : option string) (d : Disposition) :
  Hook.Invariant h -> Hook.Invariant (Hook.step h (Hook.Render key d)).
Proof.
  intros [Hfresh Hstale Hlive Hshows]. simpl.
  destruct (decide (Hook.deps h = Some (key, d))) as [_ | _]; [now split|].
  assert (forall r k, Hook.fetches h !! r = Some k ->
                      Hook.aborted (Hook.runCleanup h) !! r = Some true) as Hall.
  { intros r k Hr. unfold Hook.runCleanup.
    destruct (Hook.cleanup h) as [r0|] eqn:Hc; simpl.
    - destruct (decide (r0 = r)) as [-> | Hne].
      + apply lookup_insert_eq.
      + rewrite lookup_insert_ne by assumption.
        apply (Hstale r k Hr). congruence.
    - apply (Hstale r k Hr). congruence. }
  assert (Hook.fetches (Hook.runCleanup h) = Hook.fetches h /\
          Hook.runs (Hook.runCleanup h) = Hook.runs h) as [Hf Hr].
  { unfold Hook.runCleanup. now destruct (Hook.cleanup h). }
  unfold Hook.runEffect.
  destruct key as [k|]; cbn [Js.truthy_opt];
    [destruct (Js.truthy k) eqn:Hk|]; cbn [negb Js.nullish].
  - rewrite Hf, Hr. split; proj.
    + intros r k' Hlook. destruct (decide (Hook.runs h = r)) as [<- | Hne]; [lia|].
      rewrite lookup_insert_ne in Hlook by assumption.
      specialize (Hfresh r k' Hlook). lia.
    + intros r k' Hlook Hnot.
      assert (Hook.runs h <> r) as Hne by congruence.
      rewrite lookup_insert_ne in Hlook by assumption.
      rewrite lookup_insert_ne by assumption.
      now apply (Hall r k').
    + intros r [= <-]. split; [lia|]. split; [apply lookup_insert_eq|].
      exists k. unfold Hook.currentKey. proj.
      repeat split; try assumption.
      intros k'. rewrite lookup_insert_eq. congruence.
    + unfold Hook.showsKey, Hook.currentKey. proj.
      cbn [Js.truthy_opt]. now rewrite Hk.
  - rewrite Hf, Hr. split; proj; try discriminate.
    + assumption.
    + intros r k' Hlook _. now apply (Hall r k').
    + unfold Hook.showsKey, Hook.currentKey. proj.
      cbn [Js.truthy_opt]. now rewrite Hk.
  - rewrite Hf, Hr. split; proj; try discriminate.
    + assumption.
    + intros r k' Hlook _. now apply (Hall r k').
    + reflexivity.
Qed.

(** The state that the callbacks of a run write when they are let through. *)
Lemma settle_state (r : nat) (k : string) (outcome : Hook.Outcome) (h : Hook.t) :
  Hook.state (Hook.settle r k outcome h) =
  if Js.nullish (Hook.aborted h !! r) false then Hook.state h
  else match outcome with
       | Hook.Fulfilled data => Hook.success k data
       | Hook.RejectedError e => Hook.error k (errorMessage e)
       | Hook.RejectedOther => Hook.error k Hook.defaultMessage
       end.
Proof.
  unfold Hook.settle. now destruct (Js.nullish (Hook.aborted h !! r) false).
Qed.

Lemma settle_fields (r : nat) (k : string) (outcome : Hook.Outcome) (h : Hook.t) :
  Hook.deps (Hook.settle r k outcome h) = Hook.deps h /\
  Hook.cleanup (Hook.settle r k outcome h) = Hook.cleanup h /\
  Hook.aborted (Hook.settle r k outcome h) = Hook.aborted h /\
  Hook.fetches (Hook.settle r k outcome h) = delete r (Hook.fetches h) /\
  Hook.runs (Hook.settle r k outcome h) = Hook.runs h.
Proof.
  unfold Hook.settle. now destruct (Js.nullish (Hook.aborted h !! r) false).
Qed.

(** A stale fetch writes nothing. *)
Lemma hook_stale_settle (h : Hook.t) (r : nat) (k : string) (outcome : Hook.Outcome) :
  Hook.Invariant h ->
  Hook.fetches h !! r = Some k -> Hook.cleanup h <> Some r ->
  Hook.state (Hook.step h (Hook.Settle r outcome)) = Hook.state h.
Proof.
  intros Hinv Hr Hstale. cbn [Hook.step]. rewrite Hr, settle_state.
  now rewrite (Hook.inv_stale h Hinv r k Hr Hstale).
Qed.

Lemma hook_settle_invariant (h : Hook.t) (r : nat) (outcome : Hook.Outcome) :
  Hook.Invariant h -> Hook.Invariant (Hook.step h (Hook.Settle r outcome)).
Proof.
  intros Hinv. cbn [Hook.step].
  destruct (Hook.fetches h !! r) as [k|] eqn:Hr; [|assumption].
  destruct (settle_fields r k outcome h) as (Hd & Hc & Ha & Hf & Hn).
  pose proof Hinv as [Hfresh Hstale Hlive Hshows].
  assert (forall r' k', delete r (Hook.fetches h) !! r' = Some k' ->
                        Hook.fetches h !! r' = Some k') as Hsub.
  { intros r' k' Hlook. destruct (decide (r = r')) as [-> | Hne].
    - now rewrite lookup_delete_eq in Hlook.
    - now rewrite lookup_delete_ne in Hlook. }
  split; unfold Hook.currentKey; rewrite ?Hd, ?Hc, ?Ha, ?Hf, ?Hn.
  - intros r' k' Hlook. eauto.
  - intros r' k' Hlook. eauto.
  - intros r' Hlive'. destruct (Hlive r' Hlive') as (Hlt & Hab & k0 & Hk0 & Ht & Hkeys).
    split; [assumption|]. split; [assumption|].
    exists k0. repeat split; try assumption. intros k' Hlook. eauto.
  - rewrite settle_state.
    destruct (Hook.aborted h !! r) as [[|]|] eqn:Hab; cbn [Js.nullish];
      try exact Hshows.
    + destruct (Hook.cleanup h) as [r0|] eqn:Hc0.
      * destruct (decide (r0 = r)) as [-> | Hne].
        -- destruct (Hlive r eq_refl) as (_ & _ & k0 & Hk0 & Ht & Hkeys).
           rewrite (Hkeys k Hr). unfold Hook.currentKey in Hk0.
           unfold Hook.showsKey. rewrite Hk0. cbn [Js.truthy_opt]. rewrite Ht.
           now destruct outcome.
        -- assert (Hook.aborted h !! r = Some true) as Habs
             by (apply (Hstale r k Hr); congruence).
           congruence.
      * assert (Hook.aborted h !! r = Some true) as Habs
          by (apply (Hstale r k Hr); congruence).
        congruence.
    + assert (Hook.aborted h !! r = Some true) as Habs.
      { apply (Hstale r k Hr). intros Hc0.
        destruct (Hlive r Hc0) as (_ & Hfalse & _). congruence. }
      congruence.
Qed.

Lemma hook_step_invariant (h : Hook.t) (e : Hook.Event) :
  Hook.Invariant h -> Hook.Invariant (Hook.step h e).
Proof.
  destruct e; [apply hook_render_invariant | apply hook_settle_invariant].
Qed.

Lemma hook_fold_invariant (events : list Hook.Event) (h : Hook.t) :
  Hook.Invariant h -> Hook.Invariant (fold_left Hook.step events h).
Proof.
  revert h. induction events as [|e events IH]; intros h Hinv; simpl.
  - assumption.
  - apply IH. now apply hook_step_invariant.
Qed.

(** The dependencies remember the key of the last render. *)
Lemma hook_fold_currentKey (events : list Hook.Event) (h : Hook.t) :
  Hook.currentKey (fold_left Hook.step events h) =
  Hook.selected events (Hook.currentKey h).
Proof.
  revert h. induction events as [|e events IH]; intros h; [reflexivity|].
  cbn [fold_left Hook.selected]. rewrite IH. destruct e as [key d | r outcome].
  - f_equal. cbn [Hook.step].
    destruct (decide (Hook.deps h = Some (key, d))) as [Heq | _].
    + unfold Hook.currentKey. now rewrite Heq.
    + unfold Hook.runEffect, Hook.currentKey.
      now destruct (negb (Js.truthy_opt key)).
  - f_equal. cbn [Hook.step]. destruct (Hook.fetches h !! r); [|reflexivity].
    unfold Hook.currentKey.
    now destruct (settle_fields r s outcome h) as (-> & _).
Qed.

(** C5. After any sequence of renders and of settled fetches, the state
    shows the key of the most recent render; and an outstanding fetch that
    is not the one of the last effect run (in particular every fetch for a
    key other than the selected one) leaves the state as it is when it
    settles, whether it succeeds or fails. *)
Theorem stale_fetch_never_applied (events : list Hook.Event) :
  let h := Hook.run events in
  Hook.showsKey (Hook.state h) (Hook.selected events None) /\
  (forall r k outcome,
     Hook.fetches h !! r = Some k -> Hook.cleanup h <> Some r ->
     Hook.state (Hook.step h (Hook.Settle r outcome)) = Hook.state h) /\
  (forall r k outcome,
     Hook.fetches h !! r = Some k -> Some k <> Hook.selected events None ->
     Hook.state (Hook.step h (Hook.Settle r outcome)) = Hook.state h).
Proof.
  intros h.
  assert (Hook.Invariant h) as Hinv
    by (apply hook_fold_invariant, hook_init_invariant).
  assert (Hook.currentKey h = Hook.selected events None) as Hkey
    by apply (hook_fold_currentKey events Hook.init).
  split; [|split].
  - rewrite <- Hkey. apply (Hook.inv_shows h Hinv).
  - intros r k outcome Hr Hstale. now apply (hook_stale_settle h r k).
  - intros r k outcome Hr Hother. apply (hook_stale_settle h r k); try assumption.
    intros Hlive.
    destruct (Hook.inv_live h Hinv r Hlive) as (_ & _ & k0 & Hk0 & _ & Hkeys).
    rewrite (Hkeys k Hr) in Hother. congruence.
Qed.

(** Key [A] is selected, then key [B] before the fetch of [A] has settled;
    the fetch of [B] succeeds, then the one of [A] does. *)
Lemma stale_fetch_never_applied_witness :
  let events :=
    [Hook.Render (Some "A") inline; Hook.Render (Some "B") inline;
     Hook.Settle 1 (Hook.Fulfilled Sample.grantB)] in
  Hook.state (Hook.run events) = Hook.success "B" Sample.grantB /\
  Hook.state (Hook.step (Hook.run events) (Hook.Settle 0 (Hook.Fulfilled Sample.grantA)))
  = Hook.success "B" Sample.grantB.
Proof.
  intros events. split; [reflexivity|].
  destruct (stale_fetch_never_applied events) as (_ & _ & Hother).
  rewrite (Hother 0%nat "A" (Hook.Fulfilled Sample.grantA)).
  - reflexivity.
  - reflexivity.
  - discriminate.
Defined.

(** ** Rejection of malformed requests *)

Lemma zIntPositive_rejects (p : string) (max : option Z) (d : Z) (v : JsValue) :
  malformedNumber max v = true ->
  exists issue issues, zIntPositive p max d v = inl (issue :: issues).
Proof.
  unfold malformedNumber, positiveInteger, zIntPositive, numberIssues.
  destruct v as [| |b|n|s|o]; try discriminate;
    try (intros _; do 2 eexists; reflexivity).
  destruct n as [|negative|z|below]; try (intros _; do 2 eexists; reflexivity).
  intros Hbad. apply negb_true_iff, andb_false_iff in Hbad.
  match goal with
  | |- context [match ?l with [] => _ | _ :: _ => _ end] =>
      assert (l <> []) as Hissues;
      [|destruct l; [congruence | do 2 eexists; reflexivity]]
  end.
  intros Hnone. apply app_eq_nil in Hnone as [_ Hnone].
  apply app_eq_nil in Hnone as [Hsmall Hbig].
  destruct (Z.leb_spec z 0) as [Hle | Hgt]; [discriminate|].
  destruct Hbad as [Hbad | Hbad]; [apply Z.ltb_ge in Hbad; lia|].
  destruct max as [m|]; [|discriminate].
  apply Z.leb_gt in Hbad. destruct (Z.ltb_spec m z); [discriminate|lia].
Qed.

Lemma paginatedListSchema_rejects (input : JsValue) :
  malformedListing input = true ->
  exists issue issues, paginatedListSchema input = inl (issue :: issues).
Proof.
  destruct input as [| |b|n|s|o]; try (intros _; do 2 eexists; reflexivity).
  unfold malformedListing, paginatedListSchema. intros Hbad.
  pose proof (zIntPositive_rejects "foldersPage" None 1 (getField o "foldersPage"))
    as Hfo.
  pose proof (zIntPositive_rejects "filesPage" None 1 (getField o "filesPage"))
    as Hfi.
  pose proof (zIntPositive_rejects "itemsPerPage" (Some 50) 10
                (getField o "itemsPerPage")) as Hn.
  destruct (zStringOptional "prefix" (getField o "prefix")) as [l1|p],
           (zIntPositive "foldersPage" None 1 (getField o "foldersPage")) as [l2|fo],
           (zIntPositive "filesPage" None 1 (getField o "filesPage")) as [l3|fi],
           (zIntPositive "itemsPerPage" (Some 50) 10 (getField o "itemsPerPage"))
             as [l4|n];
    (apply orb_prop in Hbad as [Hbad | Hbad];
     [apply orb_prop in Hbad as [Hbad | Hbad];
      [destruct (Hfo Hbad) as (i & l & [= ->])
      |destruct (Hfi Hbad) as (i & l & [= ->])]
     |destruct (Hn Hbad) as (i & l & [= ->])]);
    simpl;
    try (destruct l1 as [|x1 t1]; simpl);
    try (destruct l2 as [|x2 t2]; simpl);
    try (destruct l3 as [|x3 t3]; simpl);
    eauto.
Qed.

(** C6. A malformed listing request is rejected with a validation error
    that names at least one issue, and the trace of the storage calls is
    left as it was: no call is issued. *)
Theorem malformed_listing_rejected_before_storage (env : Env) (s3 : S3Client)
  (localeCompare : string -> string -> Z) (input : JsValue) (tr : list Call) :
  malformedListing input = true ->
  exists issue issues,
    listObjectsPaginated env s3 localeCompare input tr =
    (inl (ZodError (issue :: issues)), tr).
Proof.
  intros Hbad.
  destruct (paginatedListSchema_rejects input Hbad) as (issue & issues & Hparse).
  exists issue, issues.
  unfold listObjectsPaginated, createServerFn. now rewrite Hparse.
Qed.

Lemma malformed_listing_rejected_before_storage_witness :
  exists issue issues,
    listObjectsPaginated Sample.env Sample.s3 Sample.localeCompare
      (listingRequest (Some "docs") 0 1 51) [] =
    (inl (ZodError (issue :: issues)), []).
Proof.
  apply (malformed_listing_rejected_before_storage Sample.env Sample.s3
           Sample.localeCompare (listingRequest (Some "docs") 0 1 51) []).
  reflexivity.
Defined.

(** ** Access to an object *)

Lemma objectAccessSchema_accepts (key : string) (d : option Disposition) :
  key <> "" ->
  objectAccessSchema (accessRequest key d) =
  inr (ObjectAccessRequest.mk key (Js.nullish d inline)).
Proof.
  intros Hkey. unfold objectAccessSchema, accessRequest.
  cbn [getField String.eqb Ascii.eqb Bool.eqb zStringMin1].
  destruct key as [|c key]; [congruence|].
  now destruct d as [[|]|].
Qed.

(** The trace of [getObjectAccess] holds a signature only for 300 seconds. *)
Lemma getObjectAccess_ttl (env : Env) (s3 : S3Client) (input : JsValue) :
  Forall (fun c => forall command ttl, c = GetSignedUrl command ttl -> ttl = 300)
         (snd (getObjectAccess env s3 input [])).
Proof.
  unfold getObjectAccess, createServerFn.
  destruct (objectAccessSchema input) as [issues | data]; [constructor|].
  unfold getObjectAccessHandler, bind, sendHeadObject, getSignedUrl, await, ret.
  destruct (headObject s3 _) as [e | head]; simpl.
  - repeat constructor. discriminate.
  - destruct (presign s3 _ 300); simpl; repeat constructor;
      try discriminate; now intros ? ? [= _ <-].
Qed.

(** C7. For a request with a non-empty key, when the metadata are there:
    the object is headed, then one URL is signed, for 300 seconds, with the
    requested disposition ([inline] when none is given) and the content
    type of the metadata as response overrides; the grant carries the key,
    the URL and the metadata. Whatever the request, no URL is ever signed
    for another duration. *)
Theorem access_url_signed_for_five_minutes (env : Env) (s3 : S3Client)
  (key : string) (disposition : option Disposition) (head : HeadObjectOutput.t) :
  key <> "" ->
  headObject s3 (HeadObjectInput.mk (S3_BUCKET env) key) = inr head ->
  let command :=
    GetObjectInput.mk (S3_BUCKET env) key (Js.nullish disposition inline)
      (HeadObjectOutput.ContentType head) in
  getObjectAccess env s3 (accessRequest key disposition) [] =
  (match presign s3 command 300 with
   | inr signedUrl =>
       inr (ObjectAccess.mk key signedUrl
              (Js.nullish (HeadObjectOutput.ContentType head)
                 "application/octet-stream")
              (Js.nullish (HeadObjectOutput.ContentLength head) 0)
              (option_map toISOString (HeadObjectOutput.LastModified head)))
   | inl e => inl (StorageError e)
   end,
   [HeadObjectCommand (HeadObjectInput.mk (S3_BUCKET env) key);
    GetSignedUrl command 300]) /\
  (forall input,
     Forall (fun c => forall command' ttl, c = GetSignedUrl command' ttl -> ttl = 300)
            (snd (getObjectAccess env s3 input []))).
Proof.
  intros Hkey Hhead command. split; [|apply getObjectAccess_ttl].
  unfold getObjectAccess, createServerFn.
  rewrite objectAccessSchema_accepts by assumption.
  unfold getObjectAccessHandler, bind, sendHeadObject, getSignedUrl, await, ret.
  cbn [ObjectAccessRequest.key ObjectAccessRequest.disposition].
  rewrite Hhead.
  replace (match Js.nullish disposition inline with
           | inline => inline
           | attachment => attachment
           end) with (Js.nullish disposition inline)
    by now destruct disposition as [[|]|].
  fold command. now destruct (presign s3 command 300).
Qed.

Lemma access_url_signed_for_five_minutes_witness :
  snd (getObjectAccess Sample.env Sample.s3
         (accessRequest "docs/a" (Some attachment)) []) =
  [HeadObjectCommand (HeadObjectInput.mk "bucket" "docs/a");
   GetSignedUrl (GetObjectInput.mk "bucket" "docs/a" attachment None) 300].
Proof.
  destruct (access_url_signed_for_five_minutes Sample.env Sample.s3 "docs/a"
              (Some attachment) Sample.head ltac:(discriminate) eq_refl)
    as [Hrun _].
  now rewrite Hrun.
Defined.

Lemma getObjectAccess_inv (env : Env) (s3 : S3Client) (input : JsValue)
  (tr tr' : list Call) (grant : ObjectAccess.t) :
  getObjectAccess env s3 input tr = (inr grant, tr') ->
  exists o key head signedUrl,
    input = JObject o /\ getField o "key" = JString key /\ key <> "" /\
    headObject s3 (HeadObjectInput.mk (S3_BUCKET env) key) = inr head /\
    grant = ObjectAccess.mk key signedUrl
              (Js.nullish (HeadObjectOutput.ContentType head)
                 "application/octet-stream")
              (Js.nullish (HeadObjectOutput.ContentLength head) 0)
              (option_map toISOString (HeadObjectOutput.LastModified head)).
Proof.
  unfold getObjectAccess, createServerFn.
  destruct (objectAccessSchema input) as [issues | data] eqn:Hparse;
    [discriminate|].
  unfold objectAccessSchema in Hparse.
  destruct input as [| |b|n|s|o]; try discriminate.
  unfold zStringMin1 in Hparse.
  destruct (getField o "key") as [| |b|n|key|o'] eqn:Hkey;
    try (destruct (zDisposition _ _); discriminate).
  destruct (Js.truthy key) eqn:Htruthy;
    [|destruct (zDisposition _ _); discriminate].
  destruct (zDisposition _ _) as [|d]; [discriminate|].
  injection Hparse as <-.
  unfold getObjectAccessHandler, bind, sendHeadObject, getSignedUrl, await, ret.
  cbn [ObjectAccessRequest.key ObjectAccessRequest.disposition].
  destruct (headObject s3 _) as [e | head] eqn:Hhead; [discriminate|].
  destruct (presign s3 _ 300) as [e | signedUrl]; [discriminate|].
  intros [= <- _]. exists o, key, head, signedUrl.
  repeat split; try assumption; try reflexivity.
  intros ->. discriminate.
Qed.

(** C10. The grant of a successful call has the key of the request, as it
    was given, and the metadata of the object with their defaults: the
    content type [application/octet-stream] and the length 0 when the
    metadata have none, and no date when they have none. *)
Theorem grant_key_and_defaults (env : Env) (s3 : S3Client) (input : JsValue)
  (grant : ObjectAccess.t) (tr : list Call) :
  getObjectAccess env s3 input [] = (inr grant, tr) ->
  exists o key head,
    input = JObject o /\ getField o "key" = JString key /\
    headObject s3 (HeadObjectInput.mk (S3_BUCKET env) key) = inr head /\
    ObjectAccess.key grant = key /\
    ObjectAccess.contentType grant =
      match HeadObjectOutput.ContentType head with
      | Some contentType => contentType
      | None => "application/octet-stream"
      end /\
    ObjectAccess.contentLength grant =
      match HeadObjectOutput.ContentLength head with
      | Some contentLength => contentLength
      | None => 0
      end /\
    ObjectAccess.lastModified grant =
      match HeadObjectOutput.LastModified head with
      | Some date => Some (toISOString date)
      | None => None
      end.
Proof.
  intros Hrun.
  apply getObjectAccess_inv in Hrun
    as (o & key & head & signedUrl & -> & Hkey & _ & Hhead & ->).
  exists o, key, head. repeat split; assumption || reflexivity.
Qed.

Lemma grant_key_and_defaults_witness :
  exists grant tr,
    getObjectAccess Sample.env Sample.s3 (accessRequest "docs/a" None) [] =
      (inr grant, tr) /\
    ObjectAccess.key grant = "docs/a" /\
    ObjectAccess.contentType grant = "application/octet-stream" /\
    ObjectAccess.contentLength grant = 0 /\
    ObjectAccess.lastModified grant = None.
Proof.
  eexists. eexists. split; [reflexivity|].
  destruct (grant_key_and_defaults Sample.env Sample.s3
              (accessRequest "docs/a" None) _ _ eq_refl)
    as (o & key & head & [= <-] & [= <-] & [= <-] & Hk & Ht & Hl & Hd).
  repeat split; assumption.
Defined.

(** ** Entries with a key and a size *)

Lemma safeMapObjects_In (objects : option (list S3Object.t)) (e : ObjectSummary.t) :
  In e (safeMapObjects objects) <->
  exists o k,
    In o (Js.nullish objects []) /\ S3Object.Key o = Some k /\ k <> "" /\
    e = ObjectSummary.mk k (Js.nullish (S3Object.Size o) 0)
          (option_map toISOString (S3Object.LastModified o)) (S3Object.ETag o).
Proof.
  unfold safeMapObjects. rewrite in_map_iff. split.
  - intros (o & <- & Ho). apply filter_In in Ho as [Ho Hkey].
    destruct (S3Object.Key o) as [k|] eqn:Hk; [|discriminate].
    exists o, k. rewrite Hk. repeat split; try assumption.
    intros ->. discriminate.
  - intros (o & k & Ho & Hk & Hne & ->). exists o. rewrite Hk. split; [reflexivity|].
    apply filter_In. split; [assumption|]. rewrite Hk.
    destruct k; [congruence|reflexivity].
Qed.

Lemma safeMapObjects_keyedAndSized (objects : option (list S3Object.t)) :
  sizesReported objects -> Forall keyedAndSized (safeMapObjects objects).
Proof.
  intros Hsizes. apply List.Forall_forall. intros e He.
  apply safeMapObjects_In in He as (o & k & Ho & Hk & Hne & ->).
  split; simpl; [assumption|].
  unfold sizesReported in Hsizes. rewrite List.Forall_forall in Hsizes.
  destruct (S3Object.Size o) as [n|] eqn:Hn; simpl; [|lia].
  now apply (Hsizes o Ho).
Qed.

Lemma slice_In {A : Type} (l : list A) (start finish : Z) (x : A) :
  In x (Js.slice l start finish) -> In x l.
Proof.
  intros Hx. destruct (slice_infix l start finish) as (pre & post & Hl).
  rewrite Hl. apply in_or_app. right. apply in_or_app. now left.
Qed.

Lemma listObjects_inv (env : Env) (s3 : S3Client) (input : JsValue)
  (tr tr' : list Call) (r : ExplorerResponse.t) :
  listObjects env s3 input tr = (inr r, tr') ->
  exists data response,
    listRequestSchema input = inr data /\
    listObjectsV2 s3
      (ListObjectsV2Input.mk (S3_BUCKET env)
         (orUndefined (normalizePrefix (ListRequest.prefix data))) "/"
         (ListRequest.cursor data) (ListRequest.limit data)) = inr response /\
    tr' = tr ++ [ListObjectsV2Command
                   (ListObjectsV2Input.mk (S3_BUCKET env)
                      (orUndefined (normalizePrefix (ListRequest.prefix data)))
                      "/" (ListRequest.cursor data) (ListRequest.limit data))] /\
    ExplorerResponse.prefix r = normalizePrefix (ListRequest.prefix data) /\
    ExplorerResponse.objects r =
      Js.slice (allObjects response) 0 (ListRequest.limit data).
Proof.
  unfold listObjects, createServerFn.
  destruct (listRequestSchema input) as [issues | data]; [discriminate|].
  unfold listObjectsHandler, bind, sendListObjectsV2, await, ret.
  destruct (listObjectsV2 s3 _) as [e | response] eqn:Hstore; [discriminate|].
  intros [= <- <-]. exists data, response. simpl. eauto 8.
Qed.

(** C9, as the code has it. The mapping of the raw entries is a total
    function: without [Contents] it gives no entry; it keeps exactly the raw
    entries that have a non-empty [Key], with the size 0 for those that
    have no [Size] and the reported size for the others. So every object of
    every listing has a non-empty key, and its size is that of an entry of
    the answer, or 0 when the entry has none: it is not negative when the
    sizes that the store reports are not. *)
Theorem listed_objects_have_key_and_size (env : Env) (s3 : S3Client)
  (localeCompare : string -> string -> Z) :
  let fromStore (response : ListObjectsV2Output.t) (e : ObjectSummary.t) :=
    ObjectSummary.key e <> "" /\
    exists o,
      In o (Js.nullish (ListObjectsV2Output.Contents response) []) /\
      S3Object.Key o = Some (ObjectSummary.key e) /\
      ObjectSummary.size e = match S3Object.Size o with
                             | Some n => n
                             | None => 0
                             end in
  safeMapObjects None = [] /\
  (forall objects e,
     In e (safeMapObjects objects) <->
     exists o k,
       In o (Js.nullish objects []) /\ S3Object.Key o = Some k /\ k <> "" /\
       e = ObjectSummary.mk k
             match S3Object.Size o with
             | Some n => n
             | None => 0
             end
             (option_map toISOString (S3Object.LastModified o))
             (S3Object.ETag o)) /\
  (forall input r tr,
     listObjectsPaginated env s3 localeCompare input [] = (inr r, tr) ->
     exists command response,
       tr = [ListObjectsV2Command command] /\
       listObjectsV2 s3 command = inr response /\
       Forall (fromStore response) (PaginatedExplorerResponse.objects r) /\
       (sizesReported (ListObjectsV2Output.Contents response) ->
        Forall keyedAndSized (PaginatedExplorerResponse.objects r))) /\
  (forall input r tr,
     listObjects env s3 input [] = (inr r, tr) ->
     exists command response,
       tr = [ListObjectsV2Command command] /\
       listObjectsV2 s3 command = inr response /\
       Forall (fromStore response) (ExplorerResponse.objects r) /\
       (sizesReported (ListObjectsV2Output.Contents response) ->
        Forall keyedAndSized (ExplorerResponse.objects r))).
Proof.
  intros fromStore.
  assert (forall response start finish,
            Forall (fromStore response)
              (Js.slice (allObjects response) start finish) /\
            (sizesReported (ListObjectsV2Output.Contents response) ->
             Forall keyedAndSized (Js.slice (allObjects response) start finish)))
    as Hslice.
  { intros response start finish. split.
    - apply List.Forall_forall. intros e He. apply slice_In in He.
      apply (Permutation_in _ (sort_perm compareObjects _)) in He.
      apply safeMapObjects_In in He as (o & k & Ho & Hk & Hne & ->).
      split; [exact Hne|]. exists o. simpl. auto.
    - intros Hsizes.
      apply List.Forall_forall. intros e He. apply slice_In in He.
      apply (Permutation_in _ (sort_perm compareObjects _)) in He.
      pose proof (safeMapObjects_keyedAndSized _ Hsizes) as Hall.
      rewrite List.Forall_forall in Hall. now apply Hall. }
  split; [reflexivity|]. split; [apply safeMapObjects_In|]. split.
  - intros input r tr Hrun.
    apply listObjectsPaginated_inv in Hrun
      as (data & response & _ & Hanswer & -> & _ & (start & finish & ->) & _).
    eexists. exists response. split; [reflexivity|]. split; [exact Hanswer|].
    apply Hslice.
  - intros input r tr Hrun.
    apply listObjects_inv in Hrun
      as (data & response & _ & Hanswer & -> & _ & ->).
    eexists. exists response. split; [reflexivity|]. split; [exact Hanswer|].
    apply Hslice.
Qed.

Lemma listed_objects_have_key_and_size_witness :
  map ObjectSummary.size (safeMapObjects (Some Sample.contents)) = [10; 0; 30] /\
  sizesReported (Some Sample.contents) /\
  Forall keyedAndSized
    (objectsOf (listObjectsPaginated Sample.env Sample.s3 Sample.localeCompare
                  (listingRequest (Some "docs") 1 1 2) [])).
Proof.
  split; [reflexivity|].
  assert (sizesReported (Some Sample.contents)) as Hsizes.
  { unfold sizesReported. simpl. repeat constructor; intros n [= <-]; lia. }
  split; [exact Hsizes|].
  destruct (listed_objects_have_key_and_size Sample.env Sample.s3
              Sample.localeCompare) as (_ & _ & Hpages & _).
  destruct (Hpages (listingRequest (Some "docs") 1 1 2) _ _ eq_refl)
    as (command & response & _ & [= <-] & _ & Hsized).
  exact (Hsized Hsizes).
Defined.

(** C9, as stated, fails when the store reports a negative size: the size
    is handed on as it is. *)
Lemma listed_object_with_negative_size :
  let objects :=
    objectsOf (listObjectsPaginated Sample.env Sample.s3NegativeSize
                 Sample.localeCompare (listingRequest (Some "docs") 1 1 10) []) in
  objects = [ObjectSummary.mk "docs/a" (-5) None None] /\
  ~ Forall keyedAndSized objects.
Proof.
  split; [reflexivity|].
  intros Hall. apply Forall_inv in Hall. destruct Hall as [_ Hsize].
  simpl in Hsize. lia.
Qed.

(** ** The prefix of the storage call *)

(** Off the prefixes made of slashes only, the code normalises as the
    specification says. *)
Lemma normalizePrefix_as_specified (prefix : option string) :
  slashesOnly prefix = false ->
  normalizePrefix prefix = normalizePrefixAsSpecified prefix.
Proof.
  destruct prefix as [p|]; [|reflexivity].
  unfold slashesOnly, normalizePrefix, normalizePrefixAsSpecified.
  destruct p as [|c p]; [reflexivity|].
  cbn [Js.truthy negb andb]. intros Hs. apply negb_false_iff in Hs.
  rewrite Hs. cbn [andb].
  now destruct (Js.endsWithSlash (Js.stripLeadingSlashes (String c p))).
Qed.

(** On those, it answers [/] where the specification says the root. *)
Lemma normalizePrefix_of_slashes (prefix : option string) :
  slashesOnly prefix = true ->
  normalizePrefix prefix = "/" /\ normalizePrefixAsSpecified prefix = "".
Proof.
  destruct prefix as [p|]; [|discriminate].
  unfold slashesOnly, normalizePrefix, normalizePrefixAsSpecified.
  intros [Hp Hs]%andb_prop. apply negb_true_iff in Hs. rewrite Hp. cbn [negb].
  destruct (Js.stripLeadingSlashes p); [split; reflexivity|discriminate].
Qed.

(** Both listings scope their one storage call by the normalised prefix. *)
Lemma listings_scoped_by_normalizePrefix (env : Env) (s3 : S3Client)
  (localeCompare : string -> string -> Z) (input : JsValue) :
  (forall r tr,
     listObjectsPaginated env s3 localeCompare input [] = (inr r, tr) ->
     exists data command,
       paginatedListSchema input = inr data /\
       tr = [ListObjectsV2Command command] /\
       ListObjectsV2Input.Prefix command =
         orUndefined (normalizePrefix (PaginatedListRequest.prefix data))) /\
  (forall r tr,
     listObjects env s3 input [] = (inr r, tr) ->
     exists data command,
       listRequestSchema input = inr data /\
       tr = [ListObjectsV2Command command] /\
       ListObjectsV2Input.Prefix command =
         orUndefined (normalizePrefix (ListRequest.prefix data))).
Proof.
  split; intros r tr Hrun.
  - apply listObjectsPaginated_inv in Hrun
      as (data & response & Hdata & _ & -> & _).
    exists data. eexists. split; [exact Hdata|]. split; reflexivity.
  - apply listObjects_inv in Hrun as (data & response & Hdata & _ & -> & _).
    exists data. eexists. split; [exact Hdata|]. split; reflexivity.
Qed.

(** C8, where the code departs from it: a prefix made of slashes only is
    normalised to [/], not to the empty string of the bucket root, and the
    storage call of the listing is scoped to [/]. *)
Theorem normalizePrefix_slashes_only :
  normalizePrefix (Some "/") = "/" /\
  normalizePrefix (Some "///") = "/" /\
  normalizePrefixAsSpecified (Some "/") = "" /\
  snd (listObjectsPaginated Sample.env Sample.s3 Sample.localeCompare
         (listingRequest (Some "/") 1 1 10) []) =
  [ListObjectsV2Command (ListObjectsV2Input.mk "bucket" (Some "/") "/" None 1000)].
Proof. repeat split. Qed.


(** * Further properties of the code *)

(** ** Validation, as a gate in front of the store *)

Lemma zIntPositive_wellformed (p : string) (max : option Z) (d : Z) (v : JsValue) :
  0 < d <= MAX_SAFE_INTEGER -> (forall m, max = Some m -> d <= m) ->
  malformedNumber max v = false -> safePage v = true ->
  exists z,
    zIntPositive p max d v = inr z /\ 0 < z <= MAX_SAFE_INTEGER /\
    (forall m, max = Some m -> z <= m) /\
    (v = JUndefined /\ z = d \/ v = JNumber (JInt z)).
Proof.
  intros Hd Hdmax Hwf Hsafe.
  destruct v as [| |b|n|s|o]; try discriminate.
  - exists d. repeat split; auto; lia.
  - destruct n as [|negative|z|below]; try discriminate.
    unfold malformedNumber, positiveInteger in Hwf.
    apply negb_false_iff, andb_prop in Hwf as [Hpos Hmax].
    apply Z.ltb_lt in Hpos. apply Z.leb_le in Hsafe.
    assert (forall m, max = Some m -> z <= m) as Hle.
    { intros m ->. now apply Z.leb_le. }
    exists z. rewrite zIntPositive_accepts by (try assumption; lia).
    repeat split; auto; lia.
Qed.

(** A number within a bound that is a safe integer is one itself. *)
Lemma malformedNumber_safe (m : Z) (v : JsValue) :
  m <= MAX_SAFE_INTEGER -> malformedNumber (Some m) v = false -> safePage v = true.
Proof.
  intros Hm Hwf. destruct v as [| |b|n|s|o]; try reflexivity.
  destruct n as [|negative|z|below]; try reflexivity.
  unfold malformedNumber, positiveInteger in Hwf.
  apply negb_false_iff, andb_prop in Hwf as [_ Hmax].
  apply Z.leb_le in Hmax. apply Z.leb_le. lia.
Qed.

(** An integer beyond the safe ones is refused. *)
Lemma zIntPositive_unsafe (p : string) (max : option Z) (d : Z) (v : JsValue) :
  safePage v = false ->
  exists issue issues, zIntPositive p max d v = inl (issue :: issues).
Proof.
  destruct v as [| |b|n|s|o]; try discriminate.
  destruct n as [|negative|z|below]; try discriminate.
  intros Hunsafe. apply Z.leb_gt in Hunsafe.
  unfold zIntPositive, numberIssues.
  destruct (Z.ltb_spec MAX_SAFE_INTEGER z); [|lia].
  do 2 eexists. reflexivity.
Qed.

Lemma zStringOptional_wellformed (p : string) (v : JsValue) :
  optionalStringField v = true -> exists s, zStringOptional p v = inr s.
Proof. destruct v; try discriminate; intros _; eexists; reflexivity. Qed.

Lemma zStringOptional_malformed (p : string) (v : JsValue) :
  optionalStringField v = false ->
  zStringOptional p v = inl [mkIssue invalid_type p].
Proof. now destruct v. Qed.

Lemma paginatedListSchema_wellformed (input : JsValue) :
  wellFormedListing input = true ->
  exists o prefix fo fi n,
    input = JObject o /\
    paginatedListSchema input = inr (PaginatedListRequest.mk prefix fo fi n) /\
    (0 < fo <= MAX_SAFE_INTEGER /\
     (getField o "foldersPage" = JUndefined /\ fo = 1 \/
      getField o "foldersPage" = JNumber (JInt fo))) /\
    (0 < fi <= MAX_SAFE_INTEGER /\
     (getField o "filesPage" = JUndefined /\ fi = 1 \/
      getField o "filesPage" = JNumber (JInt fi))) /\
    (0 < n <= 50 /\ (getField o "itemsPerPage" = JUndefined /\ n = 10 \/
                     getField o "itemsPerPage" = JNumber (JInt n))).
Proof.
  destruct input as [| |b|x|s|o]; try discriminate.
  unfold wellFormedListing, malformedListing.
  intros [[[Hprefix Hnum]%andb_prop Hsfo]%andb_prop Hsfi]%andb_prop.
  apply negb_true_iff, orb_false_elim in Hnum as [Hnum Hn].
  apply orb_false_elim in Hnum as [Hfo Hfi].
  assert (0 < 1 <= MAX_SAFE_INTEGER) as Hone by (unfold MAX_SAFE_INTEGER; lia).
  assert (0 < 10 <= MAX_SAFE_INTEGER) as Hten by (unfold MAX_SAFE_INTEGER; lia).
  assert (50 <= MAX_SAFE_INTEGER) as Hfifty by (unfold MAX_SAFE_INTEGER; lia).
  destruct (zStringOptional_wellformed "prefix" _ Hprefix) as (prefix & Hp).
  destruct (zIntPositive_wellformed "foldersPage" None 1 _ Hone
              ltac:(discriminate) Hfo Hsfo) as (fo & Ho & Hfo0 & _ & Hfo1).
  destruct (zIntPositive_wellformed "filesPage" None 1 _ Hone
              ltac:(discriminate) Hfi Hsfi) as (fi & Hi & Hfi0 & _ & Hfi1).
  destruct (zIntPositive_wellformed "itemsPerPage" (Some 50) 10 _ Hten
              ltac:(intros m [= <-]; lia) Hn (malformedNumber_safe 50 _ Hfifty Hn))
    as (n & Hipp & Hn0 & Hn50 & Hn1).
  exists o, prefix, fo, fi, n. unfold paginatedListSchema.
  rewrite Hp, Ho, Hi, Hipp. specialize (Hn50 50 eq_refl).
  repeat split; auto; lia.
Qed.

(** One field that is refused is enough for the request to be refused. *)
Lemma paginatedListSchema_fails (o : list (string * JsValue)) :
  (exists i l, zStringOptional "prefix" (getField o "prefix") = inl (i :: l)) \/
  (exists i l, zIntPositive "foldersPage" None 1 (getField o "foldersPage")
               = inl (i :: l)) \/
  (exists i l, zIntPositive "filesPage" None 1 (getField o "filesPage")
               = inl (i :: l)) \/
  (exists i l, zIntPositive "itemsPerPage" (Some 50) 10 (getField o "itemsPerPage")
               = inl (i :: l)) ->
  exists issue issues, paginatedListSchema (JObject o) = inl (issue :: issues).
Proof.
  unfold paginatedListSchema.
  destruct (zStringOptional "prefix" (getField o "prefix")) as [[|x1 t1]|p],
           (zIntPositive "foldersPage" None 1 (getField o "foldersPage"))
             as [[|x2 t2]|fo],
           (zIntPositive "filesPage" None 1 (getField o "filesPage"))
             as [[|x3 t3]|fi],
           (zIntPositive "itemsPerPage" (Some 50) 10 (getField o "itemsPerPage"))
             as [[|x4 t4]|n];
    intros [(i & l & H) | [(i & l & H) | [(i & l & H) | (i & l & H)]]];
    try discriminate H; simpl; eauto.
Qed.

Lemma paginatedListSchema_illformed (input : JsValue) :
  wellFormedListing input = false ->
  exists issue issues, paginatedListSchema input = inl (issue :: issues).
Proof.
  destruct input as [| |b|x|s|o]; try (intros _; do 2 eexists; reflexivity).
  unfold wellFormedListing. intros Hbad.
  apply andb_false_iff in Hbad as [Hbad | Hbad];
    [apply andb_false_iff in Hbad as [Hbad | Hbad];
     [apply andb_false_iff in Hbad as [Hbad | Hbad]|]|].
  - apply paginatedListSchema_fails. left.
    rewrite (zStringOptional_malformed _ _ Hbad). eauto.
  - apply negb_false_iff in Hbad. now apply paginatedListSchema_rejects.
  - apply paginatedListSchema_fails. right. left.
    now apply zIntPositive_unsafe.
  - apply paginatedListSchema_fails. right. right. left.
    now apply zIntPositive_unsafe.
Qed.

(** X1. A well-formed listing request (page numbers that are absent or
    positive safe integers, a page size that is absent or between 1 and
    50, a prefix that is absent or a string) is never rejected: the
    validated page numbers are safe integers from 1 on and the page size
    is between 1 and 50, an absent field taking its default (1, 1 and 10)
    and a given one its value; and exactly one [ListObjectsV2] call is
    issued, for the normalised prefix, whatever the store then answers. *)
Theorem wellformed_listing_accepted (env : Env) (s3 : S3Client)
  (localeCompare : string -> string -> Z) (input : JsValue) :
  wellFormedListing input = true ->
  exists o data,
    input = JObject o /\
    paginatedListSchema input = inr data /\
    1 <= PaginatedListRequest.foldersPage data <= MAX_SAFE_INTEGER /\
    1 <= PaginatedListRequest.filesPage data <= MAX_SAFE_INTEGER /\
    1 <= PaginatedListRequest.itemsPerPage data <= 50 /\
    (getField o "foldersPage" = JUndefined ->
     PaginatedListRequest.foldersPage data = 1) /\
    (getField o "filesPage" = JUndefined ->
     PaginatedListRequest.filesPage data = 1) /\
    (getField o "itemsPerPage" = JUndefined ->
     PaginatedListRequest.itemsPerPage data = 10) /\
    (forall z, getField o "foldersPage" = JNumber (JInt z) ->
               PaginatedListRequest.foldersPage data = z) /\
    (forall z, getField o "filesPage" = JNumber (JInt z) ->
               PaginatedListRequest.filesPage data = z) /\
    (forall z, getField o "itemsPerPage" = JNumber (JInt z) ->
               PaginatedListRequest.itemsPerPage data = z) /\
    (forall tr,
       snd (listObjectsPaginated env s3 localeCompare input tr) =
       tr ++ [ListObjectsV2Command
                (listingCommand env (PaginatedListRequest.prefix data))]).
Proof.
  intros Hwf.
  destruct (paginatedListSchema_wellformed input Hwf)
    as (o & prefix & fo & fi & n & -> & Hparse & (Hfo & Hfo') & (Hfi & Hfi')
        & (Hn & Hn')).
  exists o, (PaginatedListRequest.mk prefix fo fi n). simpl.
  split; [reflexivity|]. split; [exact Hparse|].
  split; [lia|]. split; [lia|]. split; [lia|].
  split; [intros H; destruct Hfo' as [[_ ?] | H']; [assumption|congruence]|].
  split; [intros H; destruct Hfi' as [[_ ?] | H']; [assumption|congruence]|].
  split; [intros H; destruct Hn' as [[_ ?] | H']; [assumption|congruence]|].
  split; [intros z H; destruct Hfo' as [[H' _] | H']; congruence|].
  split; [intros z H; destruct Hfi' as [[H' _] | H']; congruence|].
  split; [intros z H; destruct Hn' as [[H' _] | H']; congruence|].
  intros tr. unfold listObjectsPaginated, createServerFn. rewrite Hparse.
  unfold listObjectsPaginatedHandler, bind, sendListObjectsV2, await, ret.
  cbn [PaginatedListRequest.prefix].
  fold (listingCommand env prefix).
  now destruct (listObjectsV2 s3 (listingCommand env prefix)).
Qed.

Lemma wellformed_listing_accepted_witness :
  exists data,
    paginatedListSchema (JObject [("filesPage", JNumber (JInt 3))]) = inr data /\
    PaginatedListRequest.foldersPage data = 1 /\
    PaginatedListRequest.filesPage data = 3 /\
    PaginatedListRequest.itemsPerPage data = 10.
Proof.
  destruct (wellformed_listing_accepted Sample.env Sample.s3 Sample.localeCompare
              (JObject [("filesPage", JNumber (JInt 3))]) eq_refl)
    as (o & data & [= <-] & Hparse & _ & _ & _ & Hfo & _ & Hn & _ & Hfi & _).
  exists data. split; [exact Hparse|].
  split; [now apply Hfo|]. split; [now apply Hfi|]. now apply Hn.
Defined.

(** X2. Whatever the request and the store, [listObjectsPaginated] issues
    one storage call at most: none when the request is rejected, which
    happens for the requests that are not well-formed, and for them only;
    and one otherwise, whose failure, if it fails, is the failure of the
    listing, with the error of the store and no page. *)
Theorem listing_never_partial (env : Env) (s3 : S3Client)
  (localeCompare : string -> string -> Z) (input : JsValue) :
  match listObjectsPaginated env s3 localeCompare input [] with
  | (inl (ZodError _), tr) => tr = [] /\ wellFormedListing input = false
  | (inl (StorageError e), tr) =>
      exists data,
        wellFormedListing input = true /\
        paginatedListSchema input = inr data /\
        tr = [ListObjectsV2Command
                (listingCommand env (PaginatedListRequest.prefix data))] /\
        listObjectsV2 s3 (listingCommand env (PaginatedListRequest.prefix data))
          = inl e
  | (inr r, tr) =>
      exists data response,
        wellFormedListing input = true /\
        paginatedListSchema input = inr data /\
        tr = [ListObjectsV2Command
                (listingCommand env (PaginatedListRequest.prefix data))] /\
        listObjectsV2 s3 (listingCommand env (PaginatedListRequest.prefix data))
          = inr response
  end.
Proof.
  unfold listObjectsPaginated, createServerFn.
  destruct (paginatedListSchema input) as [issues | data] eqn:Hparse.
  - simpl. split; [reflexivity|].
    destruct (wellFormedListing input) eqn:Hwf; [|reflexivity].
    destruct (paginatedListSchema_wellformed input Hwf)
      as (? & ? & ? & ? & ? & _ & Hok & _). congruence.
  - assert (wellFormedListing input = true) as Hwf.
    { destruct (wellFormedListing input) eqn:Hwf; [reflexivity|].
      destruct (paginatedListSchema_illformed input Hwf) as (? & ? & Hno).
      congruence. }
    unfold listObjectsPaginatedHandler, bind, sendListObjectsV2, await, ret.
    fold (listingCommand env (PaginatedListRequest.prefix data)).
    destruct (listObjectsV2 s3 _) as [e | response] eqn:Hstore; simpl; eauto 10.
Qed.

(** ** [listObjects] *)

Lemma listRequestSchema_accepts (prefix : option string) (limit : Z)
  (cursor : option string) :
  0 < limit <= 200 ->
  listRequestSchema (listRequest prefix limit cursor) =
  inr (ListRequest.mk prefix limit cursor).
Proof.
  intros Hlimit. unfold listRequestSchema, listRequest.
  cbn [getField String.eqb Ascii.eqb Bool.eqb].
  rewrite !zStringOptional_accepts.
  rewrite zIntPositive_accepts; try reflexivity;
    try (unfold MAX_SAFE_INTEGER; lia).
  intros m [= <-]. lia.
Qed.

(** X3. For a limit between 1 and 200, [listObjects] sends one call, with
    the limit as [MaxKeys] and the cursor as continuation token, and
    returns the first [limit] entries of the sorted answer, latest first:
    never more than [limit] of them; the folders come in the order of the
    store, and the continuation token of the answer is handed back. *)
Theorem listObjects_first_entries (env : Env) (s3 : S3Client)
  (prefix : option string) (limit : Z) (cursor : option string)
  (response : ListObjectsV2Output.t) :
  1 <= limit <= 200 ->
  listObjectsV2 s3 (listCommand env prefix limit cursor) = inr response ->
  exists r,
    listObjects env s3 (listRequest prefix limit cursor) [] =
      (inr r, [ListObjectsV2Command (listCommand env prefix limit cursor)]) /\
    ListObjectsV2Input.MaxKeys (listCommand env prefix limit cursor) = limit /\
    ListObjectsV2Input.ContinuationToken (listCommand env prefix limit cursor)
      = cursor /\
    ExplorerResponse.objects r = firstn (Z.to_nat limit) (allObjects response) /\
    Z.of_nat (List.length (ExplorerResponse.objects r)) <= limit /\
    latestFirst (ExplorerResponse.objects r) /\
    ExplorerResponse.folders r =
      mapFolders (normalizePrefix prefix)
        (ListObjectsV2Output.CommonPrefixes response) /\
    ExplorerResponse.nextCursor r =
      ListObjectsV2Output.NextContinuationToken response.
Proof.
  intros Hlimit Hstore.
  eexists. split.
  - unfold listObjects, createServerFn.
    rewrite listRequestSchema_accepts by lia.
    unfold listObjectsHandler, bind, sendListObjectsV2, await, ret.
    cbn [ListRequest.prefix ListRequest.limit ListRequest.cursor].
    fold (listCommand env prefix limit cursor). rewrite Hstore. reflexivity.
  - cbn [ExplorerResponse.objects ExplorerResponse.folders
         ExplorerResponse.nextCursor].
    fold (allObjects response).
    assert (Js.slice (allObjects response) 0 limit =
            firstn (Z.to_nat limit) (allObjects response)) as Hslice.
    { rewrite slice_nonneg by lia. simpl. f_equal. lia. }
    rewrite Hslice.
    split; [reflexivity|]. split; [reflexivity|]. split; [reflexivity|].
    split; [rewrite length_firstn; lia|].
    split; [|split; reflexivity].
    apply (latestFirst_infix [] _ (skipn (Z.to_nat limit) (allObjects response))).
    simpl. rewrite firstn_skipn. apply allObjects_latestFirst.
Qed.

Lemma listObjects_first_entries_witness :
  map ObjectSummary.key
    (match fst (listObjects Sample.env Sample.s3
                  (listRequest (Some "docs") 2 None) []) with
     | inr r => ExplorerResponse.objects r
     | inl _ => []
     end) = ["docs/b"; "docs/a"].
Proof.
  destruct (listObjects_first_entries Sample.env Sample.s3 (Some "docs") 2 None
              Sample.response ltac:(lia) eq_refl) as (r & Hrun & _ & _ & Hobjs & _).
  rewrite Hrun. cbn [fst]. rewrite Hobjs. reflexivity.
Defined.

Lemma listRequestSchema_rejects (input : JsValue) :
  wellFormedList input = false ->
  exists issue issues, listRequestSchema input = inl (issue :: issues).
Proof.
  destruct input as [| |b|n|s|o]; try (intros _; do 2 eexists; reflexivity).
  unfold wellFormedList, listRequestSchema. intros Hbad.
  pose proof (zStringOptional_malformed "prefix" (getField o "prefix")) as Hp.
  pose proof (zIntPositive_rejects "limit" (Some 200) 50 (getField o "limit")) as Hl.
  pose proof (zStringOptional_malformed "cursor" (getField o "cursor")) as Hc.
  apply andb_false_iff in Hbad as [Hbad | Hbad];
    [apply andb_false_iff in Hbad as [Hbad | Hbad]|].
  - rewrite (Hp Hbad).
    destruct (zIntPositive _ _ _ _), (zStringOptional "cursor" _);
      simpl; eauto.
  - apply negb_false_iff in Hbad. destruct (Hl Hbad) as (i & l & ->).
    destruct (zStringOptional "prefix" _) as [[|x1 t1]|],
             (zStringOptional "cursor" _); simpl; eauto.
  - rewrite (Hc Hbad).
    destruct (zStringOptional "prefix" _) as [[|x1 t1]|],
             (zIntPositive _ _ _ _) as [[|x2 t2]|]; simpl; eauto.
Qed.

(** X4. [listObjects] rejects exactly the malformed requests (a prefix or
    a cursor that is not a string, a limit that is not a positive integer
    at most 200, or no object at all), with a validation error and without
    a storage call; the others it sends to the store, with a limit between
    1 and 200 that is 50 when none is given. *)
Theorem listObjects_validation_gate (env : Env) (s3 : S3Client) (input : JsValue) :
  (wellFormedList input = false ->
   exists issue issues, forall tr,
     listObjects env s3 input tr = (inl (ZodError (issue :: issues)), tr)) /\
  (wellFormedList input = true ->
   exists o data,
     input = JObject o /\
     listRequestSchema input = inr data /\
     1 <= ListRequest.limit data <= 200 /\
     (getField o "limit" = JUndefined -> ListRequest.limit data = 50) /\
     forall tr,
       snd (listObjects env s3 input tr) =
       tr ++ [ListObjectsV2Command
                (listCommand env (ListRequest.prefix data)
                   (ListRequest.limit data) (ListRequest.cursor data))]).
Proof.
  split.
  - intros Hbad.
    destruct (listRequestSchema_rejects input Hbad) as (issue & issues & Hparse).
    exists issue, issues. intros tr.
    unfold listObjects, createServerFn. now rewrite Hparse.
  - destruct input as [| |b|n|s|o]; try discriminate.
    unfold wellFormedList. intros [[Hp Hl]%andb_prop Hc]%andb_prop.
    apply negb_true_iff in Hl.
    destruct (zStringOptional_wellformed "prefix" _ Hp) as (prefix & Hprefix).
    destruct (zStringOptional_wellformed "cursor" _ Hc) as (cursor & Hcursor).
    destruct (zIntPositive_wellformed "limit" (Some 200) 50 _
                ltac:(unfold MAX_SAFE_INTEGER; lia)
                ltac:(intros m [= <-]; lia) Hl
                (malformedNumber_safe 200 _
                   ltac:(unfold MAX_SAFE_INTEGER; lia) Hl))
      as (limit & Hlimit & Hpos & Hmax & Hgiven).
    specialize (Hmax 200 eq_refl).
    assert (listRequestSchema (JObject o) =
            inr (ListRequest.mk prefix limit cursor)) as Hparse.
    { unfold listRequestSchema. now rewrite Hprefix, Hlimit, Hcursor. }
    exists o, (ListRequest.mk prefix limit cursor). simpl.
    split; [reflexivity|]. split; [exact Hparse|]. split; [lia|].
    split; [intros H; destruct Hgiven as [[_ ?] | H']; [assumption|congruence]|].
    intros tr. unfold listObjects, createServerFn. rewrite Hparse.
    unfold listObjectsHandler, bind, sendListObjectsV2, await, ret.
    cbn [ListRequest.prefix ListRequest.limit ListRequest.cursor].
    fold (listCommand env prefix limit cursor).
    now destruct (listObjectsV2 s3 (listCommand env prefix limit cursor)).
Qed.

Lemma listObjects_validation_gate_witness :
  exists issue issues,
    listObjects Sample.env Sample.s3 (listRequest (Some "docs") 201 None) [] =
    (inl (ZodError (issue :: issues)), []).
Proof.
  destruct (listObjects_validation_gate Sample.env Sample.s3
              (listRequest (Some "docs") 201 None)) as [Hreject _].
  destruct (Hreject eq_refl) as (issue & issues & Hrun).
  exists issue, issues. apply Hrun.
Defined.

(** ** [getObjectAccess] *)

Lemma objectAccessSchema_rejects (input : JsValue) :
  wellFormedAccess input = false ->
  exists issue issues, objectAccessSchema input = inl (issue :: issues).
Proof.
  destruct input as [| |b|n|s|o]; try (intros _; do 2 eexists; reflexivity).
  unfold wellFormedAccess, objectAccessSchema, zStringMin1, zDisposition.
  intros Hbad. apply andb_false_iff in Hbad as [Hbad | Hbad].
  - destruct (getField o "key") as [| |b|n|k|o'];
      try (destruct (getField o "disposition") as [| |b'|n'|d|o''];
           try destruct (String.eqb d "inline");
           try destruct (String.eqb d "attachment");
           simpl; eauto; fail).
    rewrite Hbad.
    destruct (getField o "disposition") as [| |b'|n'|d|o''];
      try destruct (String.eqb d "inline");
      try destruct (String.eqb d "attachment"); simpl; eauto.
  - destruct (getField o "disposition") as [| |b'|n'|d|o'']; try discriminate;
      try (destruct (getField o "key") as [| |b|n|k|o'];
           try destruct (Js.truthy k); simpl; eauto; fail).
    apply orb_false_elim in Hbad as [-> ->].
    destruct (getField o "key") as [| |b|n|k|o'];
      try destruct (Js.truthy k); simpl; eauto.
Qed.

Lemma objectAccessSchema_wellformed (input : JsValue) :
  wellFormedAccess input = true ->
  exists o key d,
    input = JObject o /\ getField o "key" = JString key /\ key <> "" /\
    objectAccessSchema input = inr (ObjectAccessRequest.mk key d).
Proof.
  destruct input as [| |b|n|s|o]; try discriminate.
  unfold wellFormedAccess, objectAccessSchema, zStringMin1, zDisposition.
  intros [Hkey Hd]%andb_prop.
  destruct (getField o "key") as [| |b|n|key|o'] eqn:Hfield; try discriminate.
  rewrite Hkey. exists o, key.
  assert (key <> "") as Hne by (intros ->; discriminate).
  destruct (getField o "disposition") as [| |b'|n'|d|o'']; try discriminate.
  - exists inline. auto.
  - destruct (String.eqb d "inline") eqn:Hinline.
    + exists inline. auto.
    + simpl in Hd. rewrite Hd. exists attachment. auto.
Qed.

(** X5. [getObjectAccess] rejects exactly the malformed requests (a key
    that is not a non-empty string, a disposition other than [inline] and
    [attachment], or no object at all), with a validation error and without
    a storage call; for the others its first call heads the object of the
    key as it was given, in the configured bucket. *)
Theorem getObjectAccess_validation_gate (env : Env) (s3 : S3Client)
  (input : JsValue) :
  (wellFormedAccess input = false ->
   exists issue issues, forall tr,
     getObjectAccess env s3 input tr = (inl (ZodError (issue :: issues)), tr)) /\
  (wellFormedAccess input = true ->
   exists o key,
     input = JObject o /\ getField o "key" = JString key /\ key <> "" /\
     forall tr, exists rest,
       snd (getObjectAccess env s3 input tr) =
       tr ++ HeadObjectCommand (HeadObjectInput.mk (S3_BUCKET env) key) :: rest).
Proof.
  split.
  - intros Hbad.
    destruct (objectAccessSchema_rejects input Hbad) as (issue & issues & Hparse).
    exists issue, issues. intros tr.
    unfold getObjectAccess, createServerFn. now rewrite Hparse.
  - intros Hwf.
    destruct (objectAccessSchema_wellformed input Hwf)
      as (o & key & d & -> & Hkey & Hne & Hparse).
    exists o, key. split; [reflexivity|]. split; [exact Hkey|].
    split; [exact Hne|]. intros tr.
    unfold getObjectAccess, createServerFn. rewrite Hparse.
    unfold getObjectAccessHandler, bind, sendHeadObject, getSignedUrl, await, ret.
    cbn [ObjectAccessRequest.key ObjectAccessRequest.disposition].
    destruct (headObject s3 _) as [e | head].
    + exists []. reflexivity.
    + destruct (presign s3 _ 300); eexists; simpl;
        rewrite <- app_assoc; reflexivity.
Qed.

Lemma getObjectAccess_validation_gate_witness :
  exists issue issues,
    getObjectAccess Sample.env Sample.s3
      (JObject [("key", JString "docs/a"); ("disposition", JString "download")]) [] =
    (inl (ZodError (issue :: issues)), []).
Proof.
  destruct (getObjectAccess_validation_gate Sample.env Sample.s3
              (JObject [("key", JString "docs/a");
                        ("disposition", JString "download")])) as [Hreject _].
  destruct (Hreject eq_refl) as (issue & issues & Hrun).
  exists issue, issues. apply Hrun.
Defined.

(** X6. When the metadata of the object cannot be fetched (the object is
    not there, or the store refuses), [getObjectAccess] fails with the
    very error of the store and signs no URL: its only call is the
    [HeadObject]. *)
Theorem getObjectAccess_missing_object (env : Env) (s3 : S3Client)
  (key : string) (disposition : option Disposition) (e : JsError) :
  key <> "" ->
  headObject s3 (HeadObjectInput.mk (S3_BUCKET env) key) = inl e ->
  getObjectAccess env s3 (accessRequest key disposition) [] =
  (inl (StorageError e),
   [HeadObjectCommand (HeadObjectInput.mk (S3_BUCKET env) key)]).
Proof.
  intros Hkey Hhead.
  unfold getObjectAccess, createServerFn.
  rewrite objectAccessSchema_accepts by assumption.
  unfold getObjectAccessHandler, bind, sendHeadObject, getSignedUrl, await, ret.
  cbn [ObjectAccessRequest.key]. now rewrite Hhead.
Qed.

Lemma getObjectAccess_missing_object_witness :
  getObjectAccess Sample.env Failing.s3Missing (accessRequest "missing/key" None) [] =
  (inl (StorageError Failing.notFound),
   [HeadObjectCommand (HeadObjectInput.mk "bucket" "missing/key")]).
Proof.
  apply (getObjectAccess_missing_object Sample.env Failing.s3Missing
           "missing/key" None Failing.notFound).
  - discriminate.
  - reflexivity.
Defined.

(** X7. Whatever the request and the store, [getObjectAccess] calls the
    store twice at most, and signs a URL only as its second call, after a
    [HeadObject] of the same bucket and key that has succeeded, with the
    content type of that answer. *)
Theorem getObjectAccess_signs_after_head (env : Env) (s3 : S3Client)
  (input : JsValue) :
  let tr := snd (getObjectAccess env s3 input []) in
  tr = [] \/
  (exists key, tr = [HeadObjectCommand (HeadObjectInput.mk (S3_BUCKET env) key)]) \/
  (exists key head command,
     tr = [HeadObjectCommand (HeadObjectInput.mk (S3_BUCKET env) key);
           GetSignedUrl command 300] /\
     headObject s3 (HeadObjectInput.mk (S3_BUCKET env) key) = inr head /\
     GetObjectInput.Bucket command = S3_BUCKET env /\
     GetObjectInput.Key command = key /\
     GetObjectInput.ResponseContentType command =
       HeadObjectOutput.ContentType head).
Proof.
  unfold getObjectAccess, createServerFn.
  destruct (objectAccessSchema input) as [issues | data]; [now left|].
  unfold getObjectAccessHandler, bind, sendHeadObject, getSignedUrl, await, ret.
  destruct (headObject s3 _) as [e | head] eqn:Hhead; simpl.
  - right. left. eauto.
  - right. right. exists (ObjectAccessRequest.key data), head.
    destruct (presign s3 _ 300); eexists;
      (split; [reflexivity|]); (split; [exact Hhead|]);
      cbn [GetObjectInput.Bucket GetObjectInput.Key
           GetObjectInput.ResponseContentType]; auto.
Qed.

(** ** The hook: the fetch of the selection *)

(** X8. At any time one fetch at most can still write the state: two
    outstanding fetches that have not been aborted are the same run, and
    its key is the selected one. *)
Theorem hook_single_live_fetch (events : list Hook.Event) (r1 r2 : nat)
  (k1 k2 : string) :
  let h := Hook.run events in
  Hook.fetches h !! r1 = Some k1 -> Hook.aborted h !! r1 = Some false ->
  Hook.fetches h !! r2 = Some k2 -> Hook.aborted h !! r2 = Some false ->
  r1 = r2 /\ Some k1 = Hook.selected events None.
Proof.
  intros h Hf1 Ha1 Hf2 Ha2.
  assert (Hook.Invariant h) as Hinv
    by (apply hook_fold_invariant, hook_init_invariant).
  assert (Hook.currentKey h = Hook.selected events None) as Hkey
    by apply (hook_fold_currentKey events Hook.init).
  assert (forall r k, Hook.fetches h !! r = Some k ->
                      Hook.aborted h !! r = Some false ->
                      Hook.cleanup h = Some r) as Hlive.
  { intros r k Hf Ha.
    destruct (decide (Hook.cleanup h = Some r)) as [Hc | Hc]; [assumption|].
    pose proof (Hook.inv_stale h Hinv r k Hf Hc). congruence. }
  pose proof (Hlive r1 k1 Hf1 Ha1) as Hc1.
  pose proof (Hlive r2 k2 Hf2 Ha2) as Hc2.
  split; [congruence|].
  destruct (Hook.inv_live h Hinv r1 Hc1) as (_ & _ & k & Hk & _ & Hkeys).
  rewrite (Hkeys k1 Hf1). congruence.
Qed.

Lemma hook_single_live_fetch_witness :
  let events := [Hook.Render (Some "A") inline; Hook.Render (Some "A") attachment] in
  Hook.aborted (Hook.run events) !! 0%nat = Some true /\
  (1%nat = 1%nat /\ Some "A" = Hook.selected events None).
Proof.
  intros events. split; [reflexivity|].
  apply (hook_single_live_fetch events 1%nat 1%nat "A" "A"); reflexivity.
Defined.

(** X9. The fetch of the last effect run is the one that counts: its key
    is the selected one, and when it settles the state becomes the success
    with its data, or the error with the message of the [Error] it was
    rejected with, or with the default message for any other rejection. *)
Theorem hook_latest_fetch_applied (events : list Hook.Event) (r : nat) (k : string) :
  let h := Hook.run events in
  Hook.fetches h !! r = Some k -> Hook.cleanup h = Some r ->
  Some k = Hook.selected events None /\
  (forall data,
     Hook.state (Hook.step h (Hook.Settle r (Hook.Fulfilled data))) =
     Hook.success k data) /\
  (forall e,
     Hook.state (Hook.step h (Hook.Settle r (Hook.RejectedError e))) =
     Hook.error k (errorMessage e)) /\
  Hook.state (Hook.step h (Hook.Settle r Hook.RejectedOther)) =
  Hook.error k Hook.defaultMessage.
Proof.
  intros h Hf Hc.
  assert (Hook.Invariant h) as Hinv
    by (apply hook_fold_invariant, hook_init_invariant).
  assert (Hook.currentKey h = Hook.selected events None) as Hkey
    by apply (hook_fold_currentKey events Hook.init).
  destruct (Hook.inv_live h Hinv r Hc) as (_ & Ha & k0 & Hk0 & _ & Hkeys).
  split; [rewrite (Hkeys k Hf); congruence|].
  repeat split; intros; cbn [Hook.step]; rewrite Hf, settle_state, Ha;
    reflexivity.
Qed.

Lemma hook_latest_fetch_applied_witness :
  Hook.state
    (Hook.step (Hook.run [Hook.Render (Some "A") inline; Hook.Render (Some "B") inline])
       (Hook.Settle 1 (Hook.RejectedError Failing.notFound))) =
  Hook.error "B" "UnknownError".
Proof.
  destruct (hook_latest_fetch_applied
              [Hook.Render (Some "A") inline; Hook.Render (Some "B") inline]
              1%nat "B" eq_refl eq_refl) as (_ & _ & Herror & _).
  apply (Herror Failing.notFound).
Defined.

(** ** The normalised prefixes *)

Lemma stripLeadingSlashes_head (s : string) (c : ascii) (t : string) :
  Js.stripLeadingSlashes s = String c t -> c <> "/"%char.
Proof.
  induction s as [|x s IH]; [discriminate|].
  simpl. destruct (Ascii.eqb_spec x "/") as [-> | Hx].
  - exact IH.
  - assert (Js.stripLeadingSlashes (String x s) = String x s) as Hid.
    { destruct x as [[] [] [] [] [] [] [] []]; try reflexivity. congruence. }
    simpl in Hid. rewrite Hid. now intros [= <- _].
Qed.

Lemma stripLeadingSlashes_fixed (c : ascii) (t : string) :
  c <> "/"%char -> Js.stripLeadingSlashes (String c t) = String c t.
Proof.
  intros Hc. destruct c as [[] [] [] [] [] [] [] []]; try reflexivity. congruence.
Qed.

(** A string that does not start with a slash and ends with one is left as
    it is. *)
Lemma normalizePrefix_fixed (c : ascii) (t : string) :
  c <> "/"%char -> Js.endsWithSlash (String c t) = true ->
  normalizePrefix (Some (String c t)) = String c t.
Proof.
  intros Hc Hends. unfold normalizePrefix. cbn [Js.truthy negb].
  rewrite stripLeadingSlashes_fixed by assumption. now rewrite Hends.
Qed.

(** X10. Normalising is idempotent: a prefix that has been normalised is
    left as it is, the [/] of the prefixes made of slashes included. *)
Theorem normalizePrefix_idempotent (prefix : option string) :
  normalizePrefix (Some (normalizePrefix prefix)) = normalizePrefix prefix.
Proof.
  destruct prefix as [[|x p]|]; try reflexivity.
  assert (normalizePrefix (Some (String x p)) =
          if Js.endsWithSlash (Js.stripLeadingSlashes (String x p))
          then Js.stripLeadingSlashes (String x p)
          else (Js.stripLeadingSlashes (String x p) ++ "/")%string) as Hr
    by reflexivity.
  rewrite Hr. clear Hr.
  destruct (Js.stripLeadingSlashes (String x p)) as [|c t] eqn:Hstrip;
    [reflexivity|].
  pose proof (stripLeadingSlashes_head _ c t Hstrip) as Hc.
  destruct (Js.endsWithSlash (String c t)) eqn:Hends.
  - now apply normalizePrefix_fixed.
  - change (String c t ++ "/")%string with (String c (t ++ "/")).
    apply normalizePrefix_fixed; [assumption|].
    change (String c (t ++ "/")) with (String c t ++ "/")%string.
    apply endsWithSlash_append.
Qed.

(** X11. Unless the prefix is made of slashes only, its normal form is the
    empty string exactly when the prefix is absent or empty, and otherwise
    starts with a character that is not a slash and ends with a slash; and
    a leading slash in front of a non-empty prefix changes nothing. *)
Theorem normalizePrefix_shape (prefix : option string) :
  slashesOnly prefix = false ->
  (normalizePrefix prefix = "" <-> prefix = None \/ prefix = Some "") /\
  (normalizePrefix prefix <> "" ->
   Js.endsWithSlash (normalizePrefix prefix) = true /\
   exists c t, normalizePrefix prefix = String c t /\ c <> "/"%char) /\
  (forall p, prefix = Some p -> p <> "" ->
             normalizePrefix (Some (String "/" p)) = normalizePrefix prefix).
Proof.
  intros Hnot. destruct prefix as [p|].
  - unfold slashesOnly in Hnot. unfold normalizePrefix.
    destruct p as [|x p]; cbn [Js.truthy negb andb] in *.
    + split; [split; auto|]. split; [congruence|]. intros p [= <-]. congruence.
    + apply negb_false_iff in Hnot.
      destruct (Js.stripLeadingSlashes (String x p)) as [|c t] eqn:Hstrip;
        [discriminate|].
      pose proof (stripLeadingSlashes_head _ c t Hstrip) as Hc.
      assert ((if Js.endsWithSlash (String c t) then String c t
               else (String c t ++ "/")%string) =
              String c (if Js.endsWithSlash (String c t) then t
                        else (t ++ "/")%string)) as Hform
        by now destruct (Js.endsWithSlash (String c t)).
      split; [|split].
      * rewrite Hform. split; [discriminate|]. intros [H | H]; discriminate.
      * intros _. split.
        -- destruct (Js.endsWithSlash (String c t)) eqn:Hends; [assumption|].
           apply endsWithSlash_append.
        -- rewrite Hform. eauto.
      * intros p' [= <-] _. cbn [Js.truthy negb].
        change (Js.stripLeadingSlashes (String "/" (String x p)))
          with (Js.stripLeadingSlashes (String x p)).
        now rewrite Hstrip.
  - split; [split; auto|]. split; [simpl; congruence|]. discriminate.
Qed.

Lemma normalizePrefix_shape_witness :
  normalizePrefix (Some "//docs/img") = "docs/img/" /\
  Js.endsWithSlash (normalizePrefix (Some "//docs/img")) = true.
Proof.
  split; [reflexivity|].
  destruct (normalizePrefix_shape (Some "//docs/img") eq_refl) as (_ & Hshape & _).
  apply Hshape. discriminate.
Defined.

Lemma mapFolders_segments (prefix : string)
  (commonPrefixes : option (list CommonPrefix.t)) (f : FolderSummary.t) :
  (forall e, In e (Js.nullish commonPrefixes []) ->
     exists seg,
       CommonPrefix.Prefix e = Some (prefix ++ seg ++ "/")%string /\
       noSlash seg = true) ->
  In f (mapFolders prefix commonPrefixes) ->
  exists seg,
    noSlash seg = true /\ f = FolderSummary.mk seg (prefix ++ seg ++ "/")%string.
Proof.
  intros Hstore Hf.
  apply mapFolders_In in Hf as (e & name & He & Hname & _ & _ & ->).
  destruct (Hstore e He) as (seg & Hp & Hseg).
  rewrite Hp, replace_leading in Hname. subst name.
  exists seg. now rewrite stripTrailingSlash_append.
Qed.

Lemma normalizePrefix_cases (prefix : option string) :
  slashesOnly prefix = false ->
  normalizePrefix prefix = "" \/
  exists c t,
    normalizePrefix prefix = String c t /\ c <> "/"%char /\
    Js.endsWithSlash (String c t) = true.
Proof.
  intros Hnot. destruct prefix as [[|x p]|]; try (now left).
  right. unfold slashesOnly in Hnot. cbn [Js.truthy andb] in Hnot.
  apply negb_false_iff in Hnot.
  assert (normalizePrefix (Some (String x p)) =
          if Js.endsWithSlash (Js.stripLeadingSlashes (String x p))
          then Js.stripLeadingSlashes (String x p)
          else (Js.stripLeadingSlashes (String x p) ++ "/")%string) as Hr
    by reflexivity.
  rewrite Hr.
  destruct (Js.stripLeadingSlashes (String x p)) as [|c t] eqn:Hstrip;
    [discriminate|].
  pose proof (stripLeadingSlashes_head _ c t Hstrip) as Hc.
  destruct (Js.endsWithSlash (String c t)) eqn:Hends.
  - exists c, t. auto.
  - exists c, (t ++ "/")%string. repeat split; try assumption.
    change (String c (t ++ "/")) with (String c t ++ "/")%string.
    apply endsWithSlash_append.
Qed.

(** X12. Opening a listed folder lists that folder: when the queried
    prefix is not made of slashes only and the common prefixes are the
    normalised prefix followed by one segment and a slash, the prefix of
    every folder of the listing is already in normal form, so the listing
    that it is handed to is scoped to it unchanged. *)
Theorem folder_prefix_is_normalised (localeCompare : string -> string -> Z)
  (prefix : option string) (response : ListObjectsV2Output.t)
  (f : FolderSummary.t) :
  slashesOnly prefix = false ->
  (forall e, In e (Js.nullish (ListObjectsV2Output.CommonPrefixes response) []) ->
     exists seg,
       CommonPrefix.Prefix e = Some (normalizePrefix prefix ++ seg ++ "/")%string /\
       noSlash seg = true) ->
  In f (allFolders localeCompare (normalizePrefix prefix) response) ->
  normalizePrefix (Some (FolderSummary.prefix f)) = FolderSummary.prefix f.
Proof.
  intros Hnot Hstore Hf.
  apply (Permutation_in _ (sort_perm _ _)) in Hf.
  apply (mapFolders_segments _ _ _ Hstore) in Hf as (seg & Hseg & ->).
  cbn [FolderSummary.prefix].
  destruct (normalizePrefix_cases prefix Hnot) as [-> | (c & t & -> & Hc & Hends)].
  - cbn [String.append]. destruct seg as [|x seg]; [reflexivity|].
    simpl in Hseg. apply andb_prop in Hseg as [Hx _].
    apply negb_true_iff in Hx. destruct (Ascii.eqb_spec x "/"); [discriminate|].
    change (String x seg ++ "/")%string with (String x (seg ++ "/")).
    apply normalizePrefix_fixed; [assumption|].
    change (String x (seg ++ "/")) with (String x seg ++ "/")%string.
    apply endsWithSlash_append.
  - change (String c t ++ seg ++ "/")%string with (String c (t ++ seg ++ "/")).
    apply normalizePrefix_fixed; [assumption|].
    change (String c (t ++ seg ++ "/")) with (String c t ++ seg ++ "/")%string.
    rewrite endsWithSlash_append_nonempty by apply append_slash_nonempty.
    apply endsWithSlash_append.
Qed.

Lemma folder_prefix_is_normalised_witness :
  Forall (fun f => normalizePrefix (Some (FolderSummary.prefix f)) =
                   FolderSummary.prefix f)
    (allFolders Sample.localeCompare (normalizePrefix (Some "/docs")) Sample.response).
Proof.
  apply List.Forall_forall. intros f Hf.
  apply (folder_prefix_is_normalised Sample.localeCompare (Some "/docs")
           Sample.response f eq_refl); [|exact Hf].
  simpl. intros e [<- | [<- | []]];
    [exists "img" | exists "css"]; split; reflexivity.
Defined.

(** ** The names shown for the keys *)

Lemma split_nonempty (s : string) : Ui.split s <> [].
Proof.
  induction s as [|c s IH]; simpl; [discriminate|].
  destruct (Ascii.eqb c "/"); [discriminate|].
  now destruct (Ui.split s).
Qed.

(** Splitting at the slashes splits at any one of them first. *)
Lemma split_append (s t : string) :
  Ui.split (s ++ String "/" t) = Ui.split s ++ Ui.split t.
Proof.
  induction s as [|c s IH]; simpl; [reflexivity|].
  rewrite IH. destruct (Ascii.eqb c "/"); [reflexivity|].
  pose proof (split_nonempty s). now destruct (Ui.split s).
Qed.

Lemma split_noSlash (s : string) : noSlash s = true -> Ui.split s = [s].
Proof.
  induction s as [|c s IH]; simpl; [reflexivity|].
  intros [Hc Hs]%andb_prop. apply negb_true_iff in Hc.
  now rewrite Hc, (IH Hs).
Qed.

Lemma split_pieces (s : string) : Forall (fun x => noSlash x = true) (Ui.split s).
Proof.
  induction s as [|c s IH]; simpl; [repeat constructor|].
  destruct (Ascii.eqb c "/") eqn:Hc; [now constructor|].
  destruct (Ui.split s) as [|piece pieces]; [repeat constructor; simpl; now rewrite Hc|].
  apply Forall_cons_iff in IH as [Hpiece Hpieces].
  constructor; [|assumption]. simpl. now rewrite Hc.
Qed.

Lemma segments_append (s t : string) :
  Ui.segments (s ++ String "/" t) = Ui.segments s ++ Ui.segments t.
Proof. unfold Ui.segments. now rewrite split_append, List.filter_app. Qed.

Lemma segments_of_segment (seg : string) :
  Ui.isSegment seg = true -> Ui.segments seg = [seg].
Proof.
  unfold Ui.isSegment, Ui.segments. intros [Ht Hs]%andb_prop.
  rewrite (split_noSlash seg Hs). simpl. now rewrite Ht.
Qed.

Lemma segments_are_segments (key : string) :
  Forall (fun x => Ui.isSegment x = true) (Ui.segments key).
Proof.
  unfold Ui.segments, Ui.isSegment. apply List.Forall_forall. intros x Hx.
  apply filter_In in Hx as [Hx Ht]. rewrite Ht.
  pose proof (split_pieces key) as Hall. rewrite List.Forall_forall in Hall.
  now apply Hall.
Qed.

Lemma pop_last {A : Type} (l : list A) (x : A) : Ui.pop (l ++ [x]) = Some x.
Proof.
  induction l as [|y l IH]; [reflexivity|].
  simpl. rewrite IH. now destruct (l ++ [x]) eqn:Heq; [destruct l|].
Qed.

Lemma pop_In {A : Type} (l : list A) (x : A) : Ui.pop l = Some x -> In x l.
Proof.
  induction l as [|y l IH]; [discriminate|].
  simpl. destruct l as [|z l]; [intros [= <-]; now left|].
  intros H. right. now apply IH.
Qed.

Lemma pop_none {A : Type} (l : list A) : Ui.pop l = None -> l = [].
Proof.
  induction l as [|y l IH]; [reflexivity|].
  simpl. destruct l as [|z l]; [discriminate|].
  intros H. specialize (IH H). discriminate.
Qed.

Lemma endsWithSlash_inv (s : string) :
  Js.endsWithSlash s = true -> exists d, s = (d ++ "/")%string.
Proof.
  induction s as [|c s IH]; [discriminate|].
  simpl. destruct s as [|c' s'].
  - intros Hc. apply Ascii.eqb_eq in Hc as ->. now exists "".
  - intros Hs. destruct (IH Hs) as (d & Hd). exists (String c d).
    simpl. now rewrite Hd.
Qed.

(** X13. The name shown for an entry is its last segment: for a segment
    [seg] (not empty, without a slash) under a directory that is empty or
    ends with a slash, [extractName] of the key [dir + seg] is [seg], and
    so is [extractName] of the folder prefix [dir + seg + "/"]. *)
Theorem extractName_of_entry (dir seg : string) :
  Ui.isSegment seg = true ->
  dir = "" \/ Js.endsWithSlash dir = true ->
  Ui.extractName (dir ++ seg) = seg /\
  Ui.extractName (dir ++ seg ++ "/") = seg.
Proof.
  intros Hseg Hdir.
  assert (exists before, Ui.segments (dir ++ seg) = before ++ [seg])
    as (before & Hsegs).
  { destruct Hdir as [-> | Hends].
    - exists []. cbn [String.append app]. now apply segments_of_segment.
    - apply endsWithSlash_inv in Hends as (d & ->).
      exists (Ui.segments d).
      rewrite append_assoc. change ("/" ++ seg)%string with (String "/" seg).
      now rewrite segments_append, (segments_of_segment seg Hseg). }
  split.
  - unfold Ui.extractName. now rewrite Hsegs, pop_last.
  - unfold Ui.extractName. rewrite <- append_assoc.
    change ((dir ++ seg) ++ "/")%string with ((dir ++ seg) ++ String "/" "")%string.
    rewrite segments_append, Hsegs. cbn [Ui.segments Ui.split List.filter Js.truthy].
    now rewrite app_nil_r, pop_last.
Qed.

Lemma extractName_of_entry_witness :
  Ui.extractName "docs/img/logo.png" = "logo.png" /\
  Ui.extractName "docs/img/" = "img".
Proof.
  split.
  - apply (extractName_of_entry "docs/img/" "logo.png" eq_refl (or_intror eq_refl)).
  - apply (extractName_of_entry "docs/" "img" eq_refl (or_intror eq_refl)).
Defined.

Lemma segments_none (key : string) :
  Ui.segments key = [] <-> Js.stripLeadingSlashes key = "".
Proof.
  induction key as [|c key IH]; [split; reflexivity|].
  destruct (Ascii.eqb_spec c "/") as [-> | Hc].
  - exact IH.
  - rewrite stripLeadingSlashes_fixed by assumption.
    unfold Ui.segments. simpl.
    destruct (Ascii.eqb_spec c "/") as [? | _]; [contradiction|].
    pose proof (split_nonempty key).
    destruct (Ui.split key); [contradiction|]. simpl. split; discriminate.
Qed.

(** X14. [extractName] gives the key back when the key has no segment,
    that is when it is empty or made of slashes only; otherwise the name is
    a segment of the key: not empty, without a slash, and one of the pieces
    between the slashes. Extracting twice is extracting once. The key comes
    back as it is exactly when it has no segment or is a segment itself. *)
Theorem extractName_is_segment (key : string) :
  (Js.stripLeadingSlashes key = "" -> Ui.extractName key = key) /\
  (Js.stripLeadingSlashes key <> "" ->
   Ui.isSegment (Ui.extractName key) = true /\
   In (Ui.extractName key) (Ui.split key)) /\
  Ui.extractName (Ui.extractName key) = Ui.extractName key /\
  (Ui.extractName key = key <->
   Js.stripLeadingSlashes key = "" \/ Ui.isSegment key = true).
Proof.
  assert (Js.stripLeadingSlashes key <> "" ->
          exists seg, Ui.pop (Ui.segments key) = Some seg /\
                      Ui.isSegment seg = true /\ In seg (Ui.split key)) as Hsome.
  { intros Hne. destruct (Ui.pop (Ui.segments key)) as [seg|] eqn:Hpop.
    - exists seg. split; [reflexivity|]. apply pop_In in Hpop.
      pose proof (segments_are_segments key) as Hall.
      rewrite List.Forall_forall in Hall. split; [now apply Hall|].
      unfold Ui.segments in Hpop. now apply filter_In in Hpop as [? _].
    - apply pop_none, segments_none in Hpop. contradiction. }
  assert (Js.stripLeadingSlashes key = "" -> Ui.extractName key = key) as Hnone.
  { intros Hnone. apply segments_none in Hnone.
    unfold Ui.extractName. now rewrite Hnone. }
  split; [exact Hnone|]. split.
  - intros Hne. destruct (Hsome Hne) as (seg & Hpop & Hseg & Hin).
    unfold Ui.extractName. rewrite Hpop. simpl. auto.
  - assert (forall seg, Ui.isSegment seg = true -> Ui.extractName seg = seg)
      as Hfixed.
    { intros seg Hseg. unfold Ui.extractName.
      now rewrite (segments_of_segment seg Hseg). }
    split.
    + destruct (string_dec (Js.stripLeadingSlashes key) "") as [He | Hne].
      * rewrite (Hnone He). exact (Hnone He).
      * destruct (Hsome Hne) as (seg & Hpop & Hseg & _).
        assert (Ui.extractName key = seg) as ->
          by (unfold Ui.extractName; now rewrite Hpop).
        now apply Hfixed.
    + split.
      * intros Hsame.
        destruct (string_dec (Js.stripLeadingSlashes key) "") as [He | Hne];
          [now left|right].
        destruct (Hsome Hne) as (seg & Hpop & Hseg & _).
        assert (Ui.extractName key = seg) as Hname
          by (unfold Ui.extractName; now rewrite Hpop).
        congruence.
      * intros [He | Hseg]; [now apply Hnone | now apply Hfixed].
Qed.

Lemma extractName_is_segment_witness :
  Ui.extractName "///" = "///" /\ Ui.isSegment (Ui.extractName "a//b/") = true /\
  Ui.extractName "abc" = "abc" /\ Ui.extractName "a/bc" <> "a/bc".
Proof.
  destruct (extractName_is_segment "///") as (Hnone & _).
  destruct (extractName_is_segment "a//b/") as (_ & Hsome & _).
  destruct (extractName_is_segment "abc") as (_ & _ & _ & Hsame).
  destruct (extractName_is_segment "a/bc") as (_ & _ & _ & Hother).
  split; [now apply Hnone|]. split; [now apply Hsome|].
  split; [apply Hsame; now right|].
  intros Heq. apply Hother in Heq as [Heq | Heq]; discriminate Heq.
Defined.

(** ** The shortened key *)

Lemma length_append (a b : string) :
  String.length (a ++ b) = (String.length a + String.length b)%nat.
Proof. induction a as [|c a IH]; simpl; [reflexivity|now rewrite IH]. Qed.

Lemma substring_empty (n m : nat) : String.substring n m "" = "".
Proof. now destruct n, m. Qed.

Lemma substring_drop (n a b : nat) (s : string) :
  String.substring (n + a) b s = String.substring a b (Js.dropChars n s).
Proof.
  revert s. induction n as [|n IH]; intros s; [reflexivity|].
  destruct s as [|c s]; simpl.
  - now destruct a, b.
  - apply IH.
Qed.

Lemma substring_cut (n : nat) (s : string) :
  s = (String.substring 0 n s ++ Js.dropChars n s)%string.
Proof.
  revert s. induction n as [|n IH]; intros [|c s]; simpl; try reflexivity.
  now rewrite <- IH.
Qed.

Lemma substring_all (n : nat) (s : string) :
  (String.length s <= n)%nat -> String.substring 0 n s = s.
Proof.
  revert s. induction n as [|n IH]; intros [|c s]; simpl; try reflexivity;
    try lia.
  intros H. rewrite IH by lia. reflexivity.
Qed.

Lemma length_substring (n : nat) (s : string) :
  (n <= String.length s)%nat -> String.length (String.substring 0 n s) = n.
Proof.
  revert s. induction n as [|n IH]; intros [|c s]; simpl; try reflexivity;
    try lia.
  intros H. rewrite IH by lia. reflexivity.
Qed.

Lemma length_dropChars (n : nat) (s : string) :
  String.length (Js.dropChars n s) = (String.length s - n)%nat.
Proof.
  revert s. induction n as [|n IH]; intros [|c s]; simpl; try reflexivity; try lia.
  apply IH.
Qed.

(** X15. A shortened key is never longer than 28 characters: a key of 28
    characters at most is left as it is, and a longer one becomes its first
    12 characters, four dots and its last 12 characters, 28 in all. *)
Theorem shortenKey_length (key : string) :
  (String.length (Ui.shortenKey key) <= 28)%nat /\
  ((String.length key <= 28)%nat -> Ui.shortenKey key = key) /\
  ((28 < String.length key)%nat ->
   String.length (Ui.shortenKey key) = 28%nat /\
   exists first middle last,
     key = (first ++ middle ++ last)%string /\
     String.length first = 12%nat /\ String.length last = 12%nat /\
     Ui.shortenKey key = (first ++ "...." ++ last)%string).
Proof.
  assert ((String.length key <= 28)%nat -> Ui.shortenKey key = key) as Hshort.
  { intros Hle. unfold Ui.shortenKey.
    destruct (Z.ltb_spec 28 (Z.of_nat (String.length key))); [lia|reflexivity]. }
  assert ((28 < String.length key)%nat ->
          exists first middle last,
            key = (first ++ middle ++ last)%string /\
            String.length first = 12%nat /\ String.length last = 12%nat /\
            Ui.shortenKey key = (first ++ "...." ++ last)%string) as Hlong.
  { intros Hgt. set (len := String.length key) in *.
    exists (String.substring 0 12 key),
           (String.substring 0 (len - 24) (Js.dropChars 12 key)),
           (Js.dropChars (len - 24) (Js.dropChars 12 key)).
    split; [|split; [|split]].
    - rewrite <- substring_cut. apply substring_cut.
    - apply length_substring. fold len. lia.
    - rewrite !length_dropChars. fold len. lia.
    - unfold Ui.shortenKey, Ui.sliceString, Js.relativeIndex. fold len.
      destruct (Z.ltb_spec 28 (Z.of_nat len)); [|lia].
      cbn [Z.ltb Z.compare].
      destruct (Z.ltb_spec 12 0); [lia|].
      destruct (Z.ltb_spec (-12) 0); [|lia].
      rewrite (Z.min_l 0) by lia. rewrite (Z.min_l 12) by lia.
      rewrite (Z.max_l (Z.of_nat len + -12)) by lia.
      replace (Z.to_nat (12 - 0)) with 12%nat by lia.
      replace (Z.to_nat 0) with 0%nat by lia.
      replace (Z.to_nat (Z.of_nat len + -12)) with (12 + (len - 24))%nat by lia.
      replace (Z.to_nat (Z.of_nat len - (Z.of_nat len + -12))) with 12%nat by lia.
      rewrite substring_drop.
      replace (len - 24)%nat with ((len - 24) + 0)%nat at 1 by lia.
      rewrite substring_drop.
      rewrite (substring_all 12 (Js.dropChars (len - 24) (Js.dropChars 12 key)));
        [reflexivity|].
      rewrite !length_dropChars. fold len. lia. }
  split; [|split; [exact Hshort|]].
  - destruct (Nat.le_gt_cases (String.length key) 28) as [Hle | Hgt].
    + now rewrite (Hshort Hle).
    + destruct (Hlong Hgt) as (first & middle & last & _ & Hf & Hl & ->).
      rewrite !length_append, Hf, Hl. simpl. lia.
  - intros Hgt. split; [|now apply Hlong].
    destruct (Hlong Hgt) as (first & middle & last & _ & Hf & Hl & ->).
    rewrite !length_append, Hf, Hl. reflexivity.
Qed.

Lemma shortenKey_length_witness :
  Ui.shortenKey "reports/2024/quarterly/summary-final.pdf" =
    "reports/2024....ry-final.pdf" /\
  String.length (Ui.shortenKey "reports/2024/quarterly/summary-final.pdf") = 28%nat.
Proof.
  split; [reflexivity|].
  destruct (shortenKey_length "reports/2024/quarterly/summary-final.pdf")
    as (_ & _ & Hlong).
  apply Hlong. simpl. lia.
Defined.

(** ** The breadcrumb trail *)

Lemma segments_pathOf (segs : list string) :
  Forall (fun s => Ui.isSegment s = true) segs ->
  Ui.segments (Ui.pathOf segs) = segs.
Proof.
  induction 1 as [|seg segs Hseg _ IH]; [reflexivity|].
  cbn [Ui.pathOf fold_right]. fold (Ui.pathOf segs).
  change ("/" ++ Ui.pathOf segs)%string with (String "/" (Ui.pathOf segs)).
  now rewrite segments_append, (segments_of_segment seg Hseg), IH.
Qed.

Lemma join_pathOf (parts : list string) :
  parts <> [] -> (Ui.join parts ++ "/")%string = Ui.pathOf parts.
Proof.
  induction parts as [|x parts IH]; [congruence|]. intros _.
  destruct parts as [|y parts].
  - reflexivity.
  - change (Ui.join (x :: y :: parts))
      with (x ++ "/" ++ Ui.join (y :: parts))%string.
    rewrite !append_assoc, IH by discriminate. reflexivity.
Qed.

Lemma pathOf_endsWithSlash (segs : list string) :
  segs <> [] -> Js.endsWithSlash (Ui.pathOf segs) = true.
Proof.
  induction segs as [|x segs IH]; [congruence|]. intros _.
  cbn [Ui.pathOf fold_right]. fold (Ui.pathOf segs).
  rewrite endsWithSlash_append_nonempty by discriminate.
  destruct segs as [|y segs]; [reflexivity|].
  change ("/" ++ Ui.pathOf (y :: segs))%string
    with (String "/" "" ++ Ui.pathOf (y :: segs))%string.
  rewrite endsWithSlash_append_nonempty; [now apply IH|].
  cbn [Ui.pathOf fold_right]. now destruct y.
Qed.

(** The crumbs of the parts that follow [before], counted from there. *)
Lemma mapIndexed_trail (parts before rest : list string) :
  parts = before ++ rest ->
  let crumbs :=
    Ui.mapIndexed
      (fun part index =>
         Ui.mkBreadcrumb part
           (Ui.join (Js.slice parts 0 (index + 1)) ++ "/")%string)
      (Z.of_nat (List.length before)) rest in
  map Ui.label crumbs = rest /\
  map Ui.prefix crumbs =
  map (fun k => Ui.pathOf (firstn k parts))
      (seq (S (List.length before)) (List.length rest)).
Proof.
  revert before. induction rest as [|x rest IH]; intros before Hparts;
    [split; reflexivity|].
  cbn [Ui.mapIndexed map Ui.label Ui.prefix List.length seq].
  assert (parts = (before ++ [x]) ++ rest) as Hparts'
    by now rewrite <- app_assoc.
  destruct (IH (before ++ [x]) Hparts') as [Hlabels Hprefixes].
  rewrite length_app in Hlabels, Hprefixes. cbn [List.length] in *.
  replace (Z.of_nat (List.length before + 1))
    with (Z.of_nat (List.length before) + 1) in Hlabels, Hprefixes by lia.
  replace (S (List.length before + 1)) with (S (S (List.length before)))
    in Hprefixes by lia.
  rewrite Hlabels, Hprefixes. split; [reflexivity|]. f_equal.
  assert (Js.slice parts 0 (Z.of_nat (List.length before) + 1) =
          firstn (S (List.length before)) parts) as ->.
  { rewrite slice_nonneg by lia.
    change (Z.to_nat 0) with 0%nat. cbn [skipn]. f_equal. lia. }
  apply join_pathOf. rewrite Hparts.
  replace (S (List.length before)) with (List.length before + 1)%nat by lia.
  rewrite firstn_app_2. now destruct before.
Qed.

Lemma breadcrumbs_trail (searchPrefix : option string) :
  let parts := Ui.segments (Js.nullish searchPrefix "") in
  map Ui.label (Ui.breadcrumbs searchPrefix) = parts /\
  map Ui.prefix (Ui.breadcrumbs searchPrefix) =
  map (fun k => Ui.pathOf (firstn k parts)) (seq 1 (List.length parts)).
Proof.
  intros parts. apply (mapIndexed_trail parts [] parts). reflexivity.
Qed.

(** X16. The breadcrumbs of a path are its ancestors: for the prefix
    [s1/s2/.../sn/] made of segments, the labels are [s1 ... sn], the
    k-th crumb leads to [s1/.../sk/], and the last one to the prefix
    itself. *)
Theorem breadcrumbs_of_path (segs : list string) :
  Forall (fun s => Ui.isSegment s = true) segs ->
  map Ui.label (Ui.breadcrumbs (Some (Ui.pathOf segs))) = segs /\
  map Ui.prefix (Ui.breadcrumbs (Some (Ui.pathOf segs))) =
    map (fun k => Ui.pathOf (firstn k segs)) (seq 1 (List.length segs)) /\
  (segs <> [] ->
   Ui.pop (map Ui.prefix (Ui.breadcrumbs (Some (Ui.pathOf segs)))) =
   Some (Ui.pathOf segs)).
Proof.
  intros Hsegs.
  destruct (breadcrumbs_trail (Some (Ui.pathOf segs))) as [Hlabels Hprefixes].
  cbn [Js.nullish] in Hlabels, Hprefixes.
  rewrite (segments_pathOf segs Hsegs) in Hlabels, Hprefixes.
  split; [exact Hlabels|]. split; [exact Hprefixes|].
  intros Hne. rewrite Hprefixes.
  destruct (List.length segs) as [|n] eqn:Hlen; [now destruct segs|].
  rewrite seq_S, map_app. cbn [map]. rewrite pop_last.
  replace (1 + n)%nat with (List.length segs) by lia.
  now rewrite firstn_all.
Qed.

Lemma breadcrumbs_of_path_witness :
  Ui.breadcrumbs (Some "docs/img/2024/") =
  [Ui.mkBreadcrumb "docs" "docs/"; Ui.mkBreadcrumb "img" "docs/img/";
   Ui.mkBreadcrumb "2024" "docs/img/2024/"] /\
  Ui.pop (map Ui.prefix (Ui.breadcrumbs (Some (Ui.pathOf ["docs"; "img"; "2024"])))) =
  Some "docs/img/2024/".
Proof.
  split; [reflexivity|].
  destruct (breadcrumbs_of_path ["docs"; "img"; "2024"]) as (_ & _ & Hlast).
  - repeat constructor.
  - apply Hlast. discriminate.
Defined.

(** X17. Whatever the prefix of the search, with doubled, leading or
    missing slashes, there is one crumb for each of its non-empty pieces,
    labelled by it, and the prefix of every crumb is in normal form: it
    does not start with a slash, ends with one, and [normalizePrefix]
    leaves it as it is. *)
Theorem breadcrumbs_are_normalised (searchPrefix : option string) :
  map Ui.label (Ui.breadcrumbs searchPrefix) =
    Ui.segments (Js.nullish searchPrefix "") /\
  Forall (fun b =>
            Ui.isSegment (Ui.label b) = true /\
            Js.endsWithSlash (Ui.prefix b) = true /\
            normalizePrefix (Some (Ui.prefix b)) = Ui.prefix b)
         (Ui.breadcrumbs searchPrefix).
Proof.
  destruct (breadcrumbs_trail searchPrefix) as [Hlabels Hprefixes].
  set (parts := Ui.segments (Js.nullish searchPrefix "")) in *.
  split; [exact Hlabels|].
  pose proof (segments_are_segments (Js.nullish searchPrefix "")) as Hparts.
  fold parts in Hparts.
  apply List.Forall_forall. intros b Hb.
  assert (In (Ui.label b) parts) as Hlabel
    by (rewrite <- Hlabels; now apply in_map).
  assert (In (Ui.prefix b) (map Ui.prefix (Ui.breadcrumbs searchPrefix)))
    as Hprefix by now apply in_map.
  rewrite Hprefixes in Hprefix.
  apply in_map_iff in Hprefix as (k & Hk & Hin). apply in_seq in Hin.
  rewrite List.Forall_forall in Hparts.
  split; [now apply Hparts|].
  destruct parts as [|p0 parts']; [simpl in Hin; lia|].
  destruct k as [|k]; [lia|].
  cbn [firstn] in Hk.
  assert (Js.endsWithSlash (Ui.prefix b) = true) as Hends
    by (rewrite <- Hk; now apply pathOf_endsWithSlash).
  split; [exact Hends|].
  assert (Ui.isSegment p0 = true) as Hp0 by (apply Hparts; now left).
  unfold Ui.isSegment in Hp0. apply andb_prop in Hp0 as [Ht Hs].
  destruct p0 as [|c t]; [discriminate|].
  simpl in Hs. apply andb_prop in Hs as [Hc _]. apply negb_true_iff in Hc.
  destruct (Ascii.eqb_spec c "/") as [? | Hne]; [discriminate|].
  cbn [Ui.pathOf fold_right String.append] in Hk.
  rewrite <- Hk in Hends |- *. now apply normalizePrefix_fixed.
Qed.

(** ** The pagination controls *)

Lemma range_In (start finish x : Z) :
  In x (Ui.range start finish) <-> start <= x <= finish.
Proof.
  unfold Ui.range. rewrite in_map_iff. split.
  - intros (k & <- & Hk). apply in_seq in Hk. lia.
  - intros Hx. exists (Z.to_nat (x - start)). split; [lia|].
    apply in_seq. lia.
Qed.

Lemma range_length (start finish : Z) :
  List.length (Ui.range start finish) = Z.to_nat (finish - start + 1).
Proof. unfold Ui.range. now rewrite length_map, length_seq. Qed.

Lemma range_sorted (start finish : Z) : StronglySorted Z.lt (Ui.range start finish).
Proof.
  unfold Ui.range. generalize (Z.to_nat (finish - start + 1)) as n.
  generalize 0%nat as s. intros s n. revert s.
  induction n as [|n IH]; intros s; simpl; constructor.
  - apply IH.
  - apply List.Forall_forall. intros y Hy.
    apply in_map_iff in Hy as (k & <- & Hk). apply in_seq in Hk. lia.
Qed.

Lemma sorted_app (l1 l2 : list Z) :
  StronglySorted Z.lt l1 -> StronglySorted Z.lt l2 ->
  (forall x y, In x l1 -> In y l2 -> x < y) ->
  StronglySorted Z.lt (l1 ++ l2).
Proof.
  intros H1 H2 Hlt. induction H1 as [|x l1 Hl1 IH Hx]; [assumption|].
  simpl. constructor.
  - apply IH. intros a b Ha Hb. apply Hlt; [now right|assumption].
  - apply Forall_app. split; [assumption|].
    apply List.Forall_forall. intros y Hy. apply Hlt; [now left|assumption].
Qed.

Lemma pageNumbers_map (l : list Z) : Ui.pageNumbers (map Ui.PageNumber l) = l.
Proof. induction l as [|x l IH]; simpl; [reflexivity|now rewrite IH]. Qed.

Lemma pageNumbers_app (l1 l2 : list Ui.PageButton) :
  Ui.pageNumbers (l1 ++ l2) = Ui.pageNumbers l1 ++ Ui.pageNumbers l2.
Proof. apply flat_map_app. Qed.

(** The page numbers among the buttons, when there are more than five pages. *)
Lemma pageNumbers_visible (currentPage totalPages : Z) :
  5 < totalPages ->
  Ui.pageNumbers (Ui.getVisiblePages currentPage totalPages) =
  [1] ++ Ui.range (Z.max 2 (currentPage - 1))
           (Z.min (totalPages - 1) (currentPage + 1)) ++ [totalPages].
Proof.
  intros Hmany. unfold Ui.getVisiblePages.
  destruct (Z.leb_spec totalPages 5); [lia|].
  destruct (Z.ltb_spec 1 totalPages); [|lia].
  rewrite !pageNumbers_app, pageNumbers_map.
  now destruct (1 + 2 <? currentPage), (currentPage <? totalPages - 1 - 1).
Qed.

(** X18. The buttons of the pagination show page numbers in strictly
    increasing order, so no page twice, all between 1 and [totalPages];
    there are seven buttons at most; and for a current page between 1 and
    [totalPages], the first page, the current page and the last page are
    among them. *)
Theorem visible_pages_ordered (currentPage totalPages : Z) :
  let buttons := Ui.getVisiblePages currentPage totalPages in
  StronglySorted Z.lt (Ui.pageNumbers buttons) /\
  Forall (fun page => 1 <= page <= totalPages) (Ui.pageNumbers buttons) /\
  (List.length buttons <= 7)%nat /\
  (1 <= currentPage <= totalPages ->
   In 1 (Ui.pageNumbers buttons) /\
   In currentPage (Ui.pageNumbers buttons) /\
   In totalPages (Ui.pageNumbers buttons)).
Proof.
  intros buttons. subst buttons.
  destruct (Z.le_gt_cases totalPages 5) as [Hfew | Hmany].
  - assert (Ui.getVisiblePages currentPage totalPages =
            map Ui.PageNumber (Ui.range 1 totalPages)) as ->.
    { unfold Ui.getVisiblePages. destruct (Z.leb_spec totalPages 5); [reflexivity|lia]. }
    rewrite pageNumbers_map, length_map, range_length.
    split; [apply range_sorted|]. split; [|split; [lia|]].
    + apply List.Forall_forall. intros page Hpage. now apply range_In in Hpage.
    + intros Hcur. rewrite !range_In. lia.
  - rewrite pageNumbers_visible by lia.
    set (start := Z.max 2 (currentPage - 1)).
    set (finish := Z.min (totalPages - 1) (currentPage + 1)).
    split; [|split; [|split]].
    + apply sorted_app; [repeat constructor| |].
      * apply sorted_app; [apply range_sorted|repeat constructor|].
        intros x y Hx [<- | []]. apply range_In in Hx. lia.
      * intros x y [<- | []] Hy. apply in_app_or in Hy as [Hy | [<- | []]]; [|lia].
        apply range_In in Hy. lia.
    + apply List.Forall_forall. intros page Hpage. cbn [app In] in Hpage.
      destruct Hpage as [<- | Hpage]; [lia|].
      apply in_app_or in Hpage as [Hpage | [<- | []]]; [|lia].
      apply range_In in Hpage. lia.
    + unfold Ui.getVisiblePages. destruct (Z.leb_spec totalPages 5); [lia|].
      fold start finish. rewrite !length_app, length_map, range_length.
      destruct (1 + 2 <? currentPage), (currentPage <? totalPages - 1 - 1),
               (1 <? totalPages); simpl; lia.
    + intros Hcur. cbn [app In]. split; [now left|]. split.
      * destruct (Z.eq_dec currentPage 1) as [-> | H1]; [now left|].
        right. apply in_or_app.
        destruct (Z.eq_dec currentPage totalPages) as [-> | Hn];
          [right; now left|].
        left. apply range_In. lia.
      * right. apply in_or_app. right. now left.
Qed.

(** X19. For a current page between 1 and [totalPages], a page is shown
    exactly when there are five pages at most, or it is the first, the
    last, the current one or one of its two neighbours; and the ellipsis
    is shown exactly when some page is not. *)
Theorem visible_pages_cover (currentPage totalPages : Z) :
  1 <= currentPage <= totalPages ->
  let buttons := Ui.getVisiblePages currentPage totalPages in
  (forall page, 1 <= page <= totalPages ->
     (In (Ui.PageNumber page) buttons <->
      totalPages <= 5 \/ page = 1 \/ page = totalPages \/
      currentPage - 1 <= page <= currentPage + 1)) /\
  (In Ui.Ellipsis buttons <->
   exists hidden,
     1 <= hidden <= totalPages /\ ~ In (Ui.PageNumber hidden) buttons).
Proof.
  intros Hcur buttons.
  assert (forall page, In (Ui.PageNumber page) buttons <->
                       In page (Ui.pageNumbers buttons)) as Hnum.
  { intros page. unfold Ui.pageNumbers. rewrite in_flat_map. split.
    - intros Hin. exists (Ui.PageNumber page). split; [assumption|now left].
    - intros ([q|] & Hin & Hq); [|destruct Hq].
      destruct Hq as [<- | []]. assumption. }
  destruct (Z.le_gt_cases totalPages 5) as [Hfew | Hmany].
  - assert (buttons = map Ui.PageNumber (Ui.range 1 totalPages)) as Hb.
    { unfold buttons, Ui.getVisiblePages.
      destruct (Z.leb_spec totalPages 5); [reflexivity|lia]. }
    assert (forall page, 1 <= page <= totalPages ->
                         In (Ui.PageNumber page) buttons) as Hall.
    { intros page Hpage. apply Hnum. rewrite Hb, pageNumbers_map.
      now apply range_In. }
    split.
    + intros page Hpage. split; [now left|]. intros _. now apply Hall.
    + split.
      * rewrite Hb. intros Hin. apply in_map_iff in Hin as (? & ? & _).
        discriminate.
      * intros (hidden & Hh & Hnot). exfalso. now apply Hnot, Hall.
  - assert (forall page, In (Ui.PageNumber page) buttons <->
              page = 1 \/ page = totalPages \/
              (Z.max 2 (currentPage - 1) <= page
               <= Z.min (totalPages - 1) (currentPage + 1))) as Hshown.
    { intros page. rewrite Hnum. unfold buttons.
      rewrite pageNumbers_visible by lia.
      cbn [app In]. rewrite in_app_iff, range_In. cbn [In]. intuition lia. }
    assert (In Ui.Ellipsis buttons <->
            3 < currentPage \/ currentPage < totalPages - 2) as Hdots.
    { unfold buttons, Ui.getVisiblePages.
      destruct (Z.leb_spec totalPages 5); [lia|].
      rewrite !in_app_iff.
      assert (~ In Ui.Ellipsis
                (map Ui.PageNumber
                   (Ui.range (Z.max 2 (currentPage - 1))
                      (Z.min (totalPages - 1) (currentPage + 1))))) as Hmid.
      { intros Hin. apply in_map_iff in Hin as (? & ? & _). discriminate. }
      destruct (Z.ltb_spec (1 + 2) currentPage),
               (Z.ltb_spec currentPage (totalPages - 1 - 1)),
               (Z.ltb_spec 1 totalPages); cbn [In];
        split; intros Hin; try lia; try (now intuition discriminate);
        try (left; right; now left); try (right; right; left; now left);
        intuition (discriminate || lia). }
    split.
    + intros page Hpage. rewrite Hshown. lia.
    + rewrite Hdots. split.
      * intros [Hleft | Hright].
        -- exists 2. split; [lia|]. rewrite Hshown. lia.
        -- exists (totalPages - 1). split; [lia|]. rewrite Hshown. lia.
      * intros (hidden & Hh & Hnot). rewrite Hshown in Hnot. lia.
Qed.

Lemma visible_pages_cover_witness :
  Ui.getVisiblePages 5 10 =
  [Ui.PageNumber 1; Ui.Ellipsis; Ui.PageNumber 4; Ui.PageNumber 5;
   Ui.PageNumber 6; Ui.Ellipsis; Ui.PageNumber 10] /\
  In Ui.Ellipsis (Ui.getVisiblePages 5 10).
Proof.
  split; [reflexivity|].
  destruct (visible_pages_cover 5 10 ltac:(lia)) as [Hshown Hdots].
  apply Hdots. exists 2. split; [lia|].
  rewrite (Hshown 2 ltac:(lia)). lia.
Defined.

(** X20. The range that the controls announce is the page that was
    returned: for a page between 1 and [totalPages] of a listing, the
    number of entries of the page is [endItem - startItem + 1], and the
    last page ends at [totalItems]; past the last page the announced range
    is empty, its start being beyond its end. For the files and for the
    folders, and for page numbers that are positive safe integers, as
    those of a well-formed request are. *)
Theorem shown_range_matches_page (env : Env) (s3 : S3Client)
  (localeCompare : string -> string -> Z) (prefix : option string)
  (foldersPage filesPage itemsPerPage : Z) (response : ListObjectsV2Output.t) :
  1 <= foldersPage <= MAX_SAFE_INTEGER -> 1 <= filesPage <= MAX_SAFE_INTEGER ->
  1 <= itemsPerPage <= 50 ->
  listObjectsV2 s3 (listingCommand env prefix) = inr response ->
  exists r,
    fst (listObjectsPaginated env s3 localeCompare
           (listingRequest prefix foldersPage filesPage itemsPerPage) []) = inr r /\
    let files := PaginatedExplorerResponse.filesPagination r in
    let dirs := PaginatedExplorerResponse.foldersPagination r in
    let shown (info : PageInfo.t) :=
      Ui.endItem (PageInfo.currentPage info) (PageInfo.itemsPerPage info)
        (PageInfo.totalItems info)
      - Ui.startItem (PageInfo.currentPage info) (PageInfo.itemsPerPage info) + 1 in
    (filesPage <= PageInfo.totalPages files ->
     Z.of_nat (List.length (PaginatedExplorerResponse.objects r)) = shown files) /\
    (foldersPage <= PageInfo.totalPages dirs ->
     Z.of_nat (List.length (PaginatedExplorerResponse.folders r)) = shown dirs) /\
    (filesPage = PageInfo.totalPages files ->
     Ui.endItem filesPage itemsPerPage (PageInfo.totalItems files) =
     PageInfo.totalItems files) /\
    (foldersPage = PageInfo.totalPages dirs ->
     Ui.endItem foldersPage itemsPerPage (PageInfo.totalItems dirs) =
     PageInfo.totalItems dirs) /\
    (PageInfo.totalPages files < filesPage -> shown files <= 0) /\
    (PageInfo.totalPages dirs < foldersPage -> shown dirs <= 0).
Proof.
  intros Hfo Hfi Hn Hstore.
  eexists. split.
  - rewrite (listObjectsPaginated_returns env s3 localeCompare prefix
               foldersPage filesPage itemsPerPage response [])
      by (try lia; exact Hstore).
    reflexivity.
  - cbn [PaginatedExplorerResponse.filesPagination
         PaginatedExplorerResponse.foldersPagination
         PaginatedExplorerResponse.objects PaginatedExplorerResponse.folders
         PageInfo.currentPage PageInfo.itemsPerPage PageInfo.totalItems
         PageInfo.totalPages].
    unfold Ui.endItem, Ui.startItem.
    assert (forall (A : Type) (l : list A) (page : Z),
              1 <= page ->
              let total := Z.of_nat (List.length l) in
              let pages := Js.ceilDiv total itemsPerPage in
              (page <= pages ->
               Z.of_nat (List.length
                           (Js.slice l ((page - 1) * itemsPerPage)
                              ((page - 1) * itemsPerPage + itemsPerPage))) =
               Z.min (page * itemsPerPage) total
               - ((page - 1) * itemsPerPage + 1) + 1) /\
              (page = pages -> Z.min (page * itemsPerPage) total = total) /\
              (pages < page ->
               Z.min (page * itemsPerPage) total
               - ((page - 1) * itemsPerPage + 1) + 1 <= 0)) as Hpage.
    { intros A l page Hp total pages.
      pose proof (ceilDiv_spec total itemsPerPage ltac:(lia)) as Hc.
      fold pages in Hc.
      split; [|split].
      - intros Hle. rewrite slice_page by lia.
        rewrite length_firstn, length_skipn. fold total. nia.
      - intros ->. nia.
      - intros Hgt. nia. }
    destruct (Hpage _ (allObjects response) filesPage (proj1 Hfi))
      as (Hf1 & Hf2 & Hf3).
    destruct (Hpage _ (allFolders localeCompare (normalizePrefix prefix) response)
                foldersPage (proj1 Hfo)) as (Hd1 & Hd2 & Hd3).
    auto 7.
Qed.

Lemma shown_range_matches_page_witness :
  exists r,
    fst (listObjectsPaginated Sample.env Sample.s3 Sample.localeCompare
           (listingRequest (Some "docs") 1 2 2) []) = inr r /\
    Ui.startItem 2 2 = 3 /\ Ui.endItem 2 2 3 = 3 /\
    Z.of_nat (List.length (PaginatedExplorerResponse.objects r)) = 3 - 3 + 1.
Proof.
  destruct (shown_range_matches_page Sample.env Sample.s3 Sample.localeCompare
              (Some "docs") 1 2 2 Sample.response
              ltac:(unfold MAX_SAFE_INTEGER; lia)
              ltac:(unfold MAX_SAFE_INTEGER; lia) ltac:(lia) eq_refl)
    as (r & Hrun & Hfiles & _).
  exists r. split; [exact Hrun|]. split; [reflexivity|]. split; [reflexivity|].
  vm_compute in Hrun. injection Hrun as <-.
  apply Hfiles. vm_compute. discriminate.
Defined.

(** ** The selected key and the page *)

(** X21. Once the effect of the page has run, the selection is on the
    page: there is no selected key exactly when the page has no object;
    a selected key is the key of an object of the page; a non-empty key
    that is on the page stays selected, and any other selection falls back
    to the first object of the page. Running the effect again changes
    nothing. *)
Theorem selection_stays_on_page (objects : list ObjectSummary.t)
  (selectedKey : option string) :
  let kept := Ui.syncSelection objects selectedKey in
  (kept = None <-> objects = []) /\
  (forall k, kept = Some k -> In k (map ObjectSummary.key objects)) /\
  (forall k, selectedKey = Some k -> k <> "" ->
             In k (map ObjectSummary.key objects) -> kept = Some k) /\
  ((selectedKey = None \/ selectedKey = Some "" \/
    forall k, selectedKey = Some k -> ~ In k (map ObjectSummary.key objects)) ->
   kept = option_map ObjectSummary.key (List.head objects)) /\
  Ui.syncSelection objects kept = kept.
Proof.
  intros kept.
  assert (forall k,
            existsb (fun object => String.eqb (ObjectSummary.key object) k) objects
            = true <-> In k (map ObjectSummary.key objects)) as Hon.
  { intros k. rewrite existsb_exists, in_map_iff. split.
    - intros (o & Ho & Heq). apply String.eqb_eq in Heq. eauto.
    - intros (o & Hk & Ho). exists o. split; [assumption|].
      now apply String.eqb_eq. }
  assert (forall k, k <> "" -> In k (map ObjectSummary.key objects) ->
                    Ui.syncSelection objects (Some k) = Some k) as Hkeep.
  { intros k Hk Hin. unfold Ui.syncSelection. cbn [Js.truthy_opt Js.nullish].
    apply Hon in Hin. rewrite Hin. destruct k; [congruence|reflexivity]. }
  assert (forall sel,
            (sel = None \/ sel = Some "" \/
             forall k, sel = Some k -> ~ In k (map ObjectSummary.key objects)) ->
            Ui.syncSelection objects sel =
            option_map ObjectSummary.key (List.head objects)) as Hfall.
  { intros sel Hsel. unfold Ui.syncSelection.
    destruct sel as [k|]; cbn [Js.truthy_opt Js.nullish andb].
    - destruct (existsb _ objects) eqn:Hex.
      + apply Hon in Hex.
        destruct Hsel as [? | [[= ->] | Hnot]]; [discriminate| |].
        * now destruct objects.
        * exfalso. now apply (Hnot k).
      + rewrite andb_false_r. now destruct objects.
    - now destruct objects. }
  assert (forall sel k, Ui.syncSelection objects sel = Some k ->
                        In k (map ObjectSummary.key objects)) as Hin.
  { intros sel k. unfold Ui.syncSelection.
    destruct (Js.truthy_opt sel && existsb _ objects) eqn:Hc.
    - intros ->. apply andb_prop in Hc as [_ Hex]. now apply Hon in Hex.
    - destruct objects as [|o objects]; [discriminate|].
      intros [= <-]. now left. }
  split; [|split; [|split; [|split]]].
  - unfold kept, Ui.syncSelection. split.
    + destruct (Js.truthy_opt selectedKey && existsb _ objects) eqn:Hc.
      * intros ->. apply andb_prop in Hc as [Hc _]. discriminate.
      * now destruct objects.
    + intros ->. simpl. now rewrite andb_false_r.
  - intros k. apply Hin.
  - intros k -> Hk Hon'. now apply Hkeep.
  - apply Hfall.
  - destruct kept as [k|] eqn:Hkept.
    + pose proof (Hin selectedKey k Hkept) as Hk.
      destruct (string_dec k "") as [-> | Hne]; [|now apply Hkeep].
      rewrite Hfall by auto. unfold kept, Ui.syncSelection in Hkept.
      destruct (Js.truthy_opt selectedKey && existsb _ objects) eqn:Hc.
      * apply andb_prop in Hc as [Hc _]. rewrite Hkept in Hc. discriminate.
      * now destruct objects.
    + rewrite Hfall by auto. unfold kept, Ui.syncSelection in Hkept.
      destruct (Js.truthy_opt selectedKey && existsb _ objects) eqn:Hc.
      * apply andb_prop in Hc as [Hc _]. rewrite Hkept in Hc. discriminate.
      * now destruct objects.
Qed.

Lemma selection_stays_on_page_witness :
  Ui.syncSelection (allObjects Sample.response) (Some "docs/zzz") = Some "docs/b" /\
  Ui.syncSelection (allObjects Sample.response) (Some "docs/c") = Some "docs/c".
Proof.
  destruct (selection_stays_on_page (allObjects Sample.response) (Some "docs/c"))
    as (_ & _ & Hkeep & _).
  split; [reflexivity|].
  apply Hkeep; [reflexivity|discriminate|].
  simpl. auto.
Defined.
